(** * Docker image analysis (src/imageAnalysis.ts): a shallow embedding

    The TypeScript module parses a Dockerfile into image references
    ([DockerImageAnalysis.parseLine], [collectImages]) and runs one
    asynchronous analysis call around progress and display collaborators
    ([runImageAnalysis], [executeDockerImageAnalysis]).

    Strings are JavaScript strings: sequences of UTF-16 code units, here
    [list N].  The regular expressions of the class are kept as regular
    expressions and run by a backtracking matcher that follows the
    ECMAScript matcher (continuation passing, greedy quantifiers, the
    empty-iteration check of [*]).  The argument table is the instance's
    [Map<string, string>], a [gmap] threaded through the line parser. *)

From Stdlib Require Import NArith Ascii String Lia Bool.
From stdpp Require Import gmap list.

Local Open Scope N_scope.
Local Open Scope nat_scope.
Local Open Scope list_scope.

(** ** JavaScript strings *)

Module JS.

(** A string literal of the source, as code units (ASCII literals only). *)
Definition lit (s : string) : list N :=
  map N_of_ascii (list_ascii_of_string s).

(** ECMAScript WhiteSpace: TAB, VT, FF, ZWNBSP and the Zs category. *)
Definition isWhiteSpace (c : N) : bool :=
  (c =? 9)%N || (c =? 11)%N || (c =? 12)%N || (c =? 32)%N || (c =? 160)%N
  || (c =? 5760)%N || ((8192 <=? c)%N && (c <=? 8202)%N)
  || (c =? 8239)%N || (c =? 8287)%N || (c =? 12288)%N || (c =? 65279)%N.

(** ECMAScript LineTerminator: LF, CR, LS, PS. *)
Definition isLineTerminator (c : N) : bool :=
  (c =? 10)%N || (c =? 13)%N || (c =? 8232)%N || (c =? 8233)%N.

(** The class [\s], which is also what [String.prototype.trim] strips. *)
Definition isSpace (c : N) : bool := isWhiteSpace c || isLineTerminator c.

Definition nonSpace (c : N) : bool := negb (isSpace c).

Fixpoint trimStart (s : list N) : list N :=
  match s with
  | [] => []
  | a :: s' => if isSpace a then trimStart s' else s
  end.

Definition trimEnd (s : list N) : list N := rev (trimStart (rev s)).

(** [String.prototype.trim]. *)
Definition trim (s : list N) : list N := trimEnd (trimStart s).

(** [String.prototype.split] with a separator of one code unit: the
    pieces between all occurrences; never the empty array. *)
Fixpoint split (sep : N) (s : list N) : list (list N) :=
  match s with
  | [] => [[]]
  | a :: s' =>
      if (a =? sep)%N then [] :: split sep s'
      else match split sep s' with
           | p :: ps => (a :: p) :: ps
           | [] => [[a]]
           end
  end.

End JS.

(** ** Regular expressions and the backtracking matcher *)

Module RegExp.

(** The constructs the patterns of the source use.  Each pattern has at
    most one capturing group and no group under a quantifier, so a single
    capture slot is kept. *)
Inductive regex : Type :=
| Assert_start                      (* ^ (no multiline flag) *)
| Char_class (p : N -> bool)        (* a literal, a class, or the dot *)
| Seq (r1 r2 : regex)
| Star (r : regex)                  (* r*, greedy *)
| Group (r : regex).                (* ( r ), group 1 *)

Definition Plus (r : regex) : regex := Seq r (Star r).

Definition Chr (a : ascii) : regex := Char_class (N.eqb (N_of_ascii a)).

(** A literal letter under the [i] flag.  Canonicalize maps a code unit to
    its upper case unless that would send a non-ASCII unit to an ASCII
    one, so an ASCII capital is matched by itself and by its ASCII small
    letter only. *)
Definition letter_i (a : ascii) (c : N) : bool :=
  (c =? N_of_ascii a)%N || (c =? N_of_ascii a + 32)%N.

Definition Chr_i (a : ascii) : regex := Char_class (letter_i a).

Fixpoint Lit_with (f : ascii -> regex) (a : ascii) (s : string) : regex :=
  match s with
  | EmptyString => f a
  | String b s' => Seq (f a) (Lit_with f b s')
  end.

(** A literal word of at least one character. *)
Definition Lit (s : string) : regex :=
  match s with
  | EmptyString => Star (Char_class (fun _ => false))
  | String a s' => Lit_with Chr a s'
  end.

Definition Lit_i (s : string) : regex :=
  match s with
  | EmptyString => Star (Char_class (fun _ => false))
  | String a s' => Lit_with Chr_i a s'
  end.

Definition space : regex := Char_class JS.isSpace.                       (* \s *)
Definition non_space : regex := Char_class JS.nonSpace.                  (* \S, [^\s] *)
Definition dot : regex := Char_class (fun c => negb (JS.isLineTerminator c)).

(** A continuation receives the rest of the input and the capture. *)
Definition cont (R : Type) : Type := list N -> option (list N) -> option R.

Definition matcher (R : Type) : Type :=
  list N -> option (list N) -> cont R -> option R.

(** Greedy [*]: one more iteration first, then the continuation; an
    iteration that consumes nothing is rejected.  Each accepted iteration
    shortens the rest, so [length s] rounds are enough. *)
Fixpoint star_loop {R} (fuel : nat) (body : matcher R)
    (s : list N) (c : option (list N)) (k : cont R) : option R :=
  match fuel with
  | O => k s c
  | S fuel' =>
      match body s c (fun s' c' =>
                        if length s' <? length s
                        then star_loop fuel' body s' c' k
                        else None) with
      | Some x => Some x
      | None => k s c
      end
  end.

(** [m r input s c k]: match [r] at the position of [input] whose rest is
    [s], with capture [c], then continue with [k]. *)
Fixpoint m {R} (r : regex) (input : list N) : matcher R :=
  fun s c k =>
  match r with
  | Assert_start => if length s =? length input then k s c else None
  | Char_class p =>
      match s with
      | a :: s' => if p a then k s' c else None
      | [] => None
      end
  | Seq r1 r2 => m r1 input s c (fun s' c' => m r2 input s' c' k)
  | Star r' => star_loop (length s) (m r' input) s c k
  | Group r' =>
      m r' input s c
        (fun s' _ => k s' (Some (take (length s - length s') s)))
  end.

(** The result of one successful match. *)
Record match_result : Type := MatchResult {
  before : list N;            (* input up to the match *)
  matched : list N;           (* match[0] *)
  group1 : option (list N);   (* match[1] *)
  after : list N              (* input from the end of the match *)
}.

(** RegExpBuiltinExec without the sticky flag: the first position, from
    the one whose rest is [s], at which the pattern matches. *)
Fixpoint exec_loop (r : regex) (input skipped s : list N) : option match_result :=
  match m r input s None (fun s' c' => Some (s', c')) with
  | Some (s', c') =>
      Some (MatchResult skipped (take (length s - length s') s) c' s')
  | None =>
      match s with
      | [] => None
      | a :: s' => exec_loop r input (skipped ++ [a]) s'
      end
  end.

(** [str.match(re)] for a pattern without the [g] flag. *)
Definition js_match (r : regex) (str : list N) : option match_result :=
  exec_loop r str [] str.

(** The loop of [str.replace(re, f)] for a pattern with the [g] flag:
    matches are found left to right, each search starting where the last
    match ended (one unit further after an empty match). *)
Fixpoint replace_loop (fuel : nat) (r : regex) (f : match_result -> list N)
    (input s : list N) : list N :=
  match fuel with
  | O => s
  | S fuel' =>
      match exec_loop r input [] s with
      | None => s
      | Some mr =>
          before mr ++ f mr ++
          match matched mr with
          | [] => match after mr with
                  | [] => []
                  | a :: t => a :: replace_loop fuel' r f input t
                  end
          | _ :: _ => replace_loop fuel' r f input (after mr)
          end
      end
  end.

Definition replace_g (r : regex) (f : match_result -> list N) (str : list N) : list N :=
  replace_loop (S (length str)) r f str str.

(** The loop of [str.match(re)] for a pattern with the [g] flag: all the
    matched substrings, left to right. *)
Fixpoint match_loop (fuel : nat) (r : regex) (input s : list N) : list (list N) :=
  match fuel with
  | O => []
  | S fuel' =>
      match exec_loop r input [] s with
      | None => []
      | Some mr =>
          matched mr ::
          match matched mr with
          | [] => match after mr with
                  | [] => []
                  | _ :: t => match_loop fuel' r input t
                  end
          | _ :: _ => match_loop fuel' r input (after mr)
          end
      end
  end.

(** [str.match(re)] with the [g] flag; [None] is JavaScript's [null]. *)
Definition match_g (r : regex) (str : list N) : option (list (list N)) :=
  match match_loop (S (length str)) r str str with
  | [] => None
  | ms => Some ms
  end.

End RegExp.

Import RegExp.

(** ** The line parser *)

(** [interface IImageRef] *)
Record IImageRef : Type := { image : list N; platform : list N }.

(** The class's patterns. *)
Definition FROM_REGEX : regex :=              (* /^\s*FROM\s+( .* )/ *)
  Seq Assert_start (Seq (Star space) (Seq (Lit "FROM") (Seq (Plus space) (Group (Star dot))))).

Definition ARG_REGEX : regex :=               (* /^\s*ARG\s+( .* )/ *)
  Seq Assert_start (Seq (Star space) (Seq (Lit "ARG") (Seq (Plus space) (Group (Star dot))))).

Definition PLATFORM_REGEX : regex :=          (* /--platform=([^\s]+)/g *)
  Seq (Lit "--platform=") (Group (Plus non_space)).

Definition AS_REGEX : regex :=                (* /\s+AS\s+\S+/gi *)
  Seq (Plus space) (Seq (Lit_i "AS") (Seq (Plus space) (Plus non_space))).

Definition not_brace (c : N) : bool := negb ((c =? 123)%N || (c =? 125)%N).

Definition ARGS_REF_REGEX : regex :=          (* /\${([^{}]+)}/g *)
  Seq (Lit "${") (Seq (Group (Plus (Char_class not_brace))) (Lit "}")).

(** [this.args]: a Map from names to values.  [argData[1]] is stored as
    it is, and it is [undefined] ([None]) for an ARG without ['=']. *)
Abbreviation args_table := (gmap (list N) (option (list N))).

Definition js_undefined_or_empty (v : option (option (list N))) : list N :=
  match v with
  | Some (Some s) => s
  | _ => []
  end.

(** [replaceArgsInString]: each [${key}] becomes [this.args.get(key) || '']. *)
Definition replaceArgsInString (args : args_table) (imageData : list N) : list N :=
  replace_g ARGS_REF_REGEX
    (fun mr => js_undefined_or_empty (args !! default [] (group1 mr)))
    imageData.

(** Reading [a[i]] of a JavaScript array. *)
Definition js_index {A} (a : list A) (i : nat) : option A := a !! i.

Definition scratch : list N := JS.lit "scratch".

(** The image text of a FROM line: what [parseLine] computes from
    [imageMatch[1]] before the comparison with ['scratch']. *)
Definition resolveImage (args : args_table) (captured : list N) : list N :=
  let imageData := replaceArgsInString args captured in
  let imageData := replace_g PLATFORM_REGEX (fun _ => []) imageData in
  let imageData := replace_g AS_REGEX (fun _ => []) imageData in
  JS.trim imageData.

Definition platformOf (line : list N) : list N :=
  match match_g PLATFORM_REGEX line with
  | Some platformMatch =>
      default [] (js_index (JS.split 61 (default [] (js_index platformMatch 0))) 1)
  | None => []
  end.

(** The ARG half of [parseLine]: the update of [this.args]. *)
Definition parseArg (line : list N) (args : args_table) : args_table :=
  match js_match ARG_REGEX line with
  | Some argMatch =>
      let argData := JS.split 61 (JS.trim (default [] (group1 argMatch))) in
      <[ default [] (js_index argData 0) := js_index argData 1 ]> args
  | None => args
  end.

(** [parseLine]: the reference of the line, if any, and the table after
    the line. *)
Definition parseLine (line : list N) (args : args_table)
  : option IImageRef * args_table :=
  let args := parseArg line args in
  match js_match FROM_REGEX line with
  | Some imageMatch =>
      let imageData := resolveImage args (default [] (group1 imageMatch)) in
      if decide (imageData = scratch) then (None, args)
      else (Some {| image := imageData; platform := platformOf line |}, args)
  | None => (None, args)
  end.

(** [collectImages]: [lines.reduce] with the accumulator pushed to; the
    table is the instance's and is threaded along. *)
Definition collectStep (acc : list IImageRef * args_table) (line : list N)
  : list IImageRef * args_table :=
  let '(images, args) := acc in
  match parseLine line args with
  | (Some parsedImage, args') => (images ++ [parsedImage], args')
  | (None, args') => (images, args')
  end.

Definition collectImages (lines : list (list N)) (args : args_table)
  : list IImageRef * args_table :=
  fold_left collectStep lines ([], args).

(** ** The orchestrator *)

(** [interface IOptions] *)
Record IOptions : Type := {
  RHDA_TOKEN : list N;
  RHDA_SOURCE : list N;
  EXHORT_SYFT_PATH : list N;
  EXHORT_SYFT_CONFIG_PATH : list N;
  EXHORT_SYFT_IMAGE_SOURCE : list N;
  EXHORT_SKOPEO_PATH : list N;
  EXHORT_SKOPEO_CONFIG_PATH : list N;
  EXHORT_IMAGE_SERVICE_ENDPOINT : list N;
  EXHORT_DOCKER_PATH : list N;
  EXHORT_PODMAN_PATH : list N;
  EXHORT_IMAGE_PLATFORM : list N;
  EXHORT_IMAGE_OS : list N;
  EXHORT_IMAGE_ARCH : list N;
  EXHORT_IMAGE_VARIANT : list N
}.

(** The fields of [globalConfig] (module ./config) that the class reads. *)
Record Config : Type := {
  telemetryId : list N;
  utmSource : list N;
  exhortSyftPath : list N;
  exhortSyftConfigPath : list N;
  exhortSyftImageSource : list N;
  exhortSkopeoPath : list N;
  exhortSkopeoConfigPath : list N;
  exhortImageServiceEndpoint : list N;
  exhortDockerPath : list N;
  exhortPodmanPath : list N;
  exhortImagePlatform : list N;
  exhortImageOS : list N;
  exhortImageArch : list N;
  exhortImageVariant : list N
}.

(** Modelled from the spec: the module ./constants is not among the
    sources; its [StatusMessages] used here are the four progress phases
    the spec names (analyzing dependencies, generating output, success,
    failure), kept as an enumeration under the source's names. *)
Inductive StatusMessages : Type :=
| WIN_ANALYZING_DEPENDENCIES
| WIN_GENERATING_DEPENDENCIES
| WIN_SUCCESS_DEPENDENCY_ANALYSIS
| WIN_FAILURE_DEPENDENCY_ANALYSIS.

(** What the run does to its collaborators, in the order it does it. *)
Inductive Event : Type :=
| Report (message : StatusMessages)               (* p.report({ message }) *)
| UpdateCurrentWebviewPanel (data : list N)       (* the display collaborator *)
| ImageAnalysisService (images : list IImageRef) (options : IOptions).

(** The fields of a [DockerImageAnalysis] instance. *)
Record DockerImageAnalysis : Type := {
  options : IOptions;
  args : args_table;
  images : list IImageRef;
  imageAnalysisReportHtml : list N
}.

Module IO.

(** Computations that log events and either return or throw. *)
Definition t (E A : Type) : Type := list Event -> (E + A) * list Event.

Definition ret {E A} (a : A) : t E A := fun log => (inr a, log).

Definition throw {E A} (e : E) : t E A := fun log => (inl e, log).

Definition bind {E A B} (c : t E A) (f : A -> t E B) : t E B :=
  fun log =>
    match c log with
    | (inr a, log') => f a log'
    | (inl e, log') => (inl e, log')
    end.

Definition try_catch {E A} (c : t E A) (h : E -> t E A) : t E A :=
  fun log =>
    match c log with
    | (inr a, log') => (inr a, log')
    | (inl e, log') => h e log'
    end.

Definition emit {E} (ev : Event) : t E unit := fun log => (inr tt, log ++ [ev]).

(** A call that throws or returns, or a promise awaited. *)
Definition settle {E A} (r : E + A) : t E A := fun log => (r, log).

(** The run from an empty log. *)
Definition run {E A} (c : t E A) : (E + A) * list Event := c [].

End IO.

#[global] Instance io_ret {E} : MRet (IO.t E) := @IO.ret E.
#[global] Instance io_bind {E} : MBind (IO.t E) := fun A B f c => IO.bind c f.
#[global] Instance io_throw {E} : MThrow E (IO.t E) := @IO.throw E.

Section Orchestrator.

(** Thrown values and rejection reasons. *)
Variable Err : Type.

(** [fs.readFileSync(filePath).toString('utf-8')]: the call throws, or
    the content is returned as a string. *)
Variable readFileSync : list N -> Err + list N.

(** [imageAnalysisService(images, options)] (module ./exhortServices):
    the promise it returns is rejected or resolved. *)
Variable imageAnalysisService : list IImageRef -> IOptions -> Err + list N.

Variable globalConfig : Config.

Definition error_marker : list N := JS.lit "error".

Definition parseTxtDoc (filePath : list N) : IO.t Err (list (list N)) :=
  IO.try_catch
    (contentString ← IO.settle (readFileSync filePath);
     mret (JS.split 10 contentString))
    (fun err =>
       IO.emit (UpdateCurrentWebviewPanel error_marker);;
       mthrow err).

Definition initial_options : IOptions := {|
  RHDA_TOKEN := telemetryId globalConfig;
  RHDA_SOURCE := utmSource globalConfig;
  EXHORT_SYFT_PATH := exhortSyftPath globalConfig;
  EXHORT_SYFT_CONFIG_PATH := exhortSyftConfigPath globalConfig;
  EXHORT_SYFT_IMAGE_SOURCE := exhortSyftImageSource globalConfig;
  EXHORT_SKOPEO_PATH := exhortSkopeoPath globalConfig;
  EXHORT_SKOPEO_CONFIG_PATH := exhortSkopeoConfigPath globalConfig;
  EXHORT_IMAGE_SERVICE_ENDPOINT := exhortImageServiceEndpoint globalConfig;
  EXHORT_DOCKER_PATH := exhortDockerPath globalConfig;
  EXHORT_PODMAN_PATH := exhortPodmanPath globalConfig;
  EXHORT_IMAGE_PLATFORM := exhortImagePlatform globalConfig;
  EXHORT_IMAGE_OS := exhortImageOS globalConfig;
  EXHORT_IMAGE_ARCH := exhortImageArch globalConfig;
  EXHORT_IMAGE_VARIANT := exhortImageVariant globalConfig
|}.

(** [new DockerImageAnalysis(filePath)]: the field initialisers, then the
    constructor body. *)
Definition new_DockerImageAnalysis (filePath : list N) : IO.t Err DockerImageAnalysis :=
  lines ← parseTxtDoc filePath;
  let '(collected, table) := collectImages lines ∅ in
  mret {| options := initial_options;
          args := table;
          images := collected;
          imageAnalysisReportHtml := [] |}.

(** [runImageAnalysis].  [vscode.window.withProgress] runs its task once
    with the progress object and settles as the task does; the task's
    promise is resolved in the [then] callback and rejected in the [catch]
    callback of the service's promise. *)
Definition runImageAnalysis (this : DockerImageAnalysis) : IO.t Err DockerImageAnalysis :=
  IO.try_catch
    (IO.emit (Report WIN_ANALYZING_DEPENDENCIES);;
     IO.emit (ImageAnalysisService (images this) (options this));;
     IO.try_catch
       (resp ← IO.settle (imageAnalysisService (images this) (options this));
        IO.emit (Report WIN_GENERATING_DEPENDENCIES);;
        IO.emit (UpdateCurrentWebviewPanel resp);;
        IO.emit (Report WIN_SUCCESS_DEPENDENCY_ANALYSIS);;
        mret {| options := options this;
                args := args this;
                images := images this;
                imageAnalysisReportHtml := resp |})
       (fun err =>
          IO.emit (Report WIN_FAILURE_DEPENDENCY_ANALYSIS);;
          mthrow err))
    (fun err =>
       IO.emit (UpdateCurrentWebviewPanel error_marker);;
       mthrow err).

Definition executeDockerImageAnalysis (filePath : list N) : IO.t Err (list N) :=
  IO.try_catch
    (dockerImageAnalysis ← new_DockerImageAnalysis filePath;
     dockerImageAnalysis ← runImageAnalysis dockerImageAnalysis;
     mret (imageAnalysisReportHtml dockerImageAnalysis))
    (fun error => mthrow error).

End Orchestrator.

(** * Properties *)

(** ** The collector as a fold over the lines *)

Section Collector.

Implicit Types (line : list N) (lines : list (list N)) (tbl : args_table).

Lemma collect_fold lines acc tbl :
  fold_left collectStep lines (acc, tbl) =
  (acc ++ (collectImages lines tbl).1, (collectImages lines tbl).2).
Proof.
  unfold collectImages.
  revert acc tbl. induction lines as [|line lines IH]; intros acc tbl; simpl.
  - by rewrite app_nil_r.
  - destruct (parseLine line tbl) as [[r|] tbl'] eqn:E; simpl.
    + rewrite (IH (acc ++ [r]) tbl'), (IH [r] tbl'). by rewrite <- app_assoc.
    + rewrite (IH acc tbl'), (IH [] tbl'). done.
Qed.

Lemma collectImages_nil tbl : collectImages [] tbl = ([], tbl).
Proof. reflexivity. Qed.

Lemma collectImages_cons line lines tbl :
  collectImages (line :: lines) tbl =
  (option_list (parseLine line tbl).1 ++ (collectImages lines (parseLine line tbl).2).1,
   (collectImages lines (parseLine line tbl).2).2).
Proof.
  unfold collectImages at 1. simpl.
  destruct (parseLine line tbl) as [[r|] tbl']; simpl; by rewrite collect_fold.
Qed.

Lemma collectImages_app lines1 lines2 tbl :
  collectImages (lines1 ++ lines2) tbl =
  ((collectImages lines1 tbl).1 ++ (collectImages lines2 (collectImages lines1 tbl).2).1,
   (collectImages lines2 (collectImages lines1 tbl).2).2).
Proof.
  revert tbl. induction lines1 as [|line lines1 IH]; intros tbl.
  - rewrite collectImages_nil. simpl. by destruct (collectImages lines2 tbl).
  - rewrite <- app_comm_cons, !collectImages_cons, IH. simpl.
    by rewrite app_assoc.
Qed.

(** A line that is not an ARG line leaves the table alone. *)
Lemma parseArg_no_match line tbl :
  js_match ARG_REGEX line = None → parseArg line tbl = tbl.
Proof. unfold parseArg. by intros ->. Qed.

Lemma parseLine_scratch_free line tbl r :
  (parseLine line tbl).1 = Some r → image r ≠ scratch.
Proof.
  unfold parseLine. destruct (js_match FROM_REGEX line); [|done].
  case_decide; [done|]. simpl. by intros [= <-].
Qed.

Lemma collectImages_Forall (P : IImageRef → Prop) :
  (∀ line tbl r, (parseLine line tbl).1 = Some r → P r) →
  ∀ lines tbl, Forall P (collectImages lines tbl).1.
Proof.
  intros HP lines. induction lines as [|line lines IH]; intros tbl.
  - constructor.
  - rewrite collectImages_cons. simpl. apply Forall_app. split; [|apply IH].
    destruct (parseLine line tbl).1 eqn:E; simpl; [|constructor].
    constructor; [|constructor]. by eapply HP.
Qed.

End Collector.

(** ** Trimming *)

Module JSFacts.

Import JS.

(** Whether the first code unit of [s] is a space. *)
Definition starts_with_space (s : list N) : bool :=
  match s with
  | a :: _ => isSpace a
  | [] => false
  end.

Lemma trimStart_head s : starts_with_space (trimStart s) = false.
Proof.
  induction s as [|a s IH]; simpl; [done|].
  destruct (isSpace a) eqn:Ha; [done|]. simpl. done.
Qed.

Lemma trimStart_id s : starts_with_space s = false → trimStart s = s.
Proof. destruct s as [|a s]; simpl; [done|]. by intros ->. Qed.

Lemma trimStart_idem s : trimStart (trimStart s) = trimStart s.
Proof. apply trimStart_id, trimStart_head. Qed.

Lemma trimStart_snoc s a :
  isSpace a = false → trimStart (s ++ [a]) = trimStart s ++ [a].
Proof.
  intros Ha. induction s as [|b s IH]; simpl; [by rewrite Ha|].
  by destruct (isSpace b).
Qed.

Lemma trimEnd_cons a s :
  isSpace a = false → trimEnd (a :: s) = a :: trimEnd s.
Proof.
  intros Ha. unfold trimEnd. simpl.
  by rewrite trimStart_snoc, rev_app_distr.
Qed.

Lemma trimEnd_idem s : trimEnd (trimEnd s) = trimEnd s.
Proof. unfold trimEnd. by rewrite rev_involutive, trimStart_idem. Qed.

Lemma trim_head s : starts_with_space (trim s) = false.
Proof.
  unfold trim. pose proof (trimStart_head s) as H.
  destruct (trimStart s) as [|a t]; [done|]. simpl in H.
  by rewrite trimEnd_cons.
Qed.

Lemma trim_last s : starts_with_space (rev (trim s)) = false.
Proof.
  unfold trim, trimEnd. rewrite rev_involutive. apply trimStart_head.
Qed.

Lemma trim_idem s : trim (trim s) = trim s.
Proof.
  unfold trim at 1. rewrite (trimStart_id (trim s)) by apply trim_head.
  unfold trim. apply trimEnd_idem.
Qed.

End JSFacts.

(** ** The matcher *)

Module RegExpFacts.

(** Whether the first code unit of [s] is in the class [p]. *)
Definition head_in (p : N → bool) (s : list N) : bool :=
  match s with
  | a :: _ => p a
  | [] => false
  end.

(** Patterns whose matches do not depend on where the input starts. *)
Fixpoint no_assert (r : regex) : bool :=
  match r with
  | Assert_start => false
  | Char_class _ => true
  | Seq r1 r2 => no_assert r1 && no_assert r2
  | Star r' => no_assert r'
  | Group r' => no_assert r'
  end.

Section Generic.

Context {R : Type}.
Implicit Types (s w : list N) (c : option (list N)) (k : cont R) (body : matcher R).

(** A matcher that only looks at its continuation's values. *)
Definition respects_ext body : Prop :=
  ∀ s c k1 k2, (∀ s' c', k1 s' c' = k2 s' c') → body s c k1 = body s c k2.

(** A matcher that calls its continuation on a suffix of its input. *)
Definition consumes body : Prop :=
  ∀ s c k x, body s c k = Some x → ∃ s' c', s' `suffix_of` s ∧ k s' c' = Some x.

Lemma star_loop_ext fuel body :
  respects_ext body → respects_ext (star_loop fuel body).
Proof.
  intros Hb. induction fuel as [|fuel IH]; intros s c k1 k2 Hk; simpl.
  - apply Hk.
  - rewrite (Hk s c).
    erewrite (Hb s c); [reflexivity|].
    intros s' c'. simpl. destruct (length s' <? length s); [|done].
    by apply IH.
Qed.

Lemma m_ext r input : respects_ext (m (R:=R) r input).
Proof.
  induction r as [|p|r1 IH1 r2 IH2|r IH|r IH]; intros s c k1 k2 Hk; simpl.
  - destruct (length s =? length input); [apply Hk|done].
  - destruct s as [|a s']; [done|]. destruct (p a); [apply Hk|done].
  - apply IH1. intros s' c'. by apply IH2.
  - by apply star_loop_ext.
  - apply IH. intros s' c'. apply Hk.
Qed.

Lemma star_loop_consumes fuel body : consumes body → consumes (star_loop fuel body).
Proof.
  intros Hb. induction fuel as [|fuel IH]; intros s c k x; simpl.
  - intros Hk. by exists s, c.
  - destruct (body s c _) as [y|] eqn:E.
    + intros [= ->]. apply Hb in E as (s' & c' & Hsuf & E).
      destruct (length s' <? length s); [|done].
      apply IH in E as (s'' & c'' & Hsuf' & E).
      exists s'', c''. split; [by etrans|done].
    + intros Hk. by exists s, c.
Qed.

Lemma m_consumes r input : consumes (m (R:=R) r input).
Proof.
  induction r as [|p|r1 IH1 r2 IH2|r IH|r IH]; intros s c k x; simpl.
  - destruct (length s =? length input); [|done]. intros Hk. by exists s, c.
  - destruct s as [|a s']; [done|]. destruct (p a); [|done].
    intros Hk. exists s', c. split; [by apply suffix_cons_r|done].
  - intros E. apply IH1 in E as (s1 & c1 & Hs1 & E).
    apply IH2 in E as (s2 & c2 & Hs2 & E).
    exists s2, c2. split; [by etrans|done].
  - by apply star_loop_consumes.
  - intros E. apply IH in E as (s' & c' & Hs & E). eauto.
Qed.

Lemma star_loop_body fuel body1 body2 :
  (∀ s c k, body1 s c k = body2 s c k) → respects_ext body2 →
  ∀ s c k, star_loop fuel body1 s c k = star_loop fuel body2 s c k.
Proof.
  intros H12 Hb. induction fuel as [|fuel IH]; intros s c k; simpl; [done|].
  rewrite H12. erewrite (Hb s c); [reflexivity|].
  intros s' c'. simpl. by rewrite IH.
Qed.

Lemma m_input r input1 input2 :
  no_assert r = true → ∀ s c k, m (R:=R) r input1 s c k = m r input2 s c k.
Proof.
  induction r as [|p|r1 IH1 r2 IH2|r IH|r IH]; simpl; intros Hr s c k;
    try done.
  - apply andb_prop in Hr as [H1 H2]. rewrite IH1 by done.
    apply m_ext. intros s' c'. by apply IH2.
  - apply star_loop_body; [by apply IH|apply m_ext].
  - by apply IH.
Qed.

Lemma star_class_unfold fuel p input s c k :
  star_loop fuel (m (Char_class p) input) s c k =
  match fuel, s with
  | S fuel', a :: s' =>
      if p a
      then match star_loop fuel' (m (Char_class p) input) s' c k with
           | Some x => Some x
           | None => k s c
           end
      else k s c
  | _, _ => k s c
  end.
Proof.
  destruct fuel as [|fuel]; [done|]. cbn [star_loop m].
  destruct s as [|a s']; [done|]. destruct (p a); [|done].
  replace (length s' <? length (a :: s')) with true; [done|].
  symmetry. apply Nat.ltb_lt. rewrite length_cons. lia.
Qed.

(** [p*] by inversion: a run of units of [p] was consumed. *)
Lemma star_class_inv fuel p input s c k x :
  star_loop fuel (m (Char_class p) input) s c k = Some x →
  ∃ w s', s = w ++ s' ∧ forallb p w = true ∧ k s' c = Some x.
Proof.
  revert s. induction fuel as [|fuel IH]; intros s; rewrite star_class_unfold.
  - intros Hk. by exists [], s.
  - destruct s as [|a s1]; [intros Hk; by exists [], []|].
    destruct (p a) eqn:Hpa; [|intros Hk; by exists [], (a :: s1)].
    destruct (star_loop fuel _ s1 c k) as [y|] eqn:E.
    + intros [= ->]. apply IH in E as (w & s' & -> & Hw & Hk).
      exists (a :: w), s'. simpl. by rewrite Hpa, Hw.
    + intros Hk. by exists [], (a :: s1).
Qed.

(** [p*] is greedy: when the continuation accepts after the longest run
    of units of [p], that is the match. *)
Lemma star_class_greedy fuel p input w rest c k x :
  forallb p w = true → head_in p rest = false → length w ≤ fuel →
  k rest c = Some x →
  star_loop fuel (m (Char_class p) input) (w ++ rest) c k = Some x.
Proof.
  intros Hw Hrest Hfuel Hk. revert fuel Hw Hfuel.
  induction w as [|a w IH]; intros fuel Hw Hfuel; rewrite star_class_unfold;
    simpl in *.
  - destruct fuel as [|fuel]; [done|].
    destruct rest as [|b rest]; [done|]. simpl in Hrest. by rewrite Hrest.
  - destruct fuel as [|fuel]; [lia|].
    apply andb_prop in Hw as [Ha Hw]. rewrite Ha.
    rewrite IH; [done|done|lia].
Qed.

End Generic.

(** The search returns a decomposition of what it was given. *)
Lemma exec_loop_split r input skipped s mr :
  exec_loop r input skipped s = Some mr →
  ∃ pre, before mr = skipped ++ pre ∧ s = pre ++ matched mr ++ after mr.
Proof.
  revert skipped. induction s as [|a s IH]; intros skipped; simpl.
  - destruct (m r input [] None _) as [[s' c']|] eqn:E; [|done].
    intros [= <-]. simpl.
    apply m_consumes in E as (s'' & c'' & Hsuf & [= <- <-]).
    apply suffix_nil_inv in Hsuf as ->.
    exists []. by rewrite app_nil_r.
  - destruct (m r input (a :: s) None _) as [[s' c']|] eqn:E.
    + intros [= <-]. simpl.
      apply m_consumes in E as (s'' & c'' & [w Hw] & [= <- <-]).
      exists []. rewrite app_nil_r. split; [done|].
      change (S (length s)) with (length (a :: s)). rewrite Hw.
      rewrite length_app, Nat.add_sub, take_app_length. done.
    + intros E'. apply IH in E' as (pre & Hb & Hs).
      exists (a :: pre). rewrite Hb, <- app_assoc. simpl. by rewrite <- Hs.
Qed.

Lemma exec_loop_input r input1 input2 skipped s :
  no_assert r = true →
  exec_loop r input1 skipped s = exec_loop r input2 skipped s.
Proof.
  intros Hr. revert skipped. induction s as [|a s IH]; intros skipped; simpl.
  - by rewrite (m_input r input1 input2).
  - rewrite (m_input r input1 input2) by done.
    destruct (m r input2 (a :: s) None _) as [[s' c']|]; [done|]. apply IH.
Qed.

(** A search that fails at the first [length w] positions goes on after
    them. *)
Lemma exec_loop_skip r input skipped w s :
  (∀ w1 w2, w = w1 ++ w2 → w2 ≠ [] →
     m r input (w2 ++ s) None (λ s' c', Some (s', c')) = None) →
  exec_loop r input skipped (w ++ s) = exec_loop r input (skipped ++ w) s.
Proof.
  revert skipped. induction w as [|a w IH]; intros skipped Hfail.
  - by rewrite app_nil_r.
  - pose proof (Hfail [] (a :: w) eq_refl ltac:(done)) as H0.
    rewrite <- app_comm_cons in *. cbn [exec_loop]. rewrite H0.
    rewrite IH; [by rewrite <- app_assoc|].
    intros w1 w2 -> Hw2. by apply (Hfail (a :: w1) w2).
Qed.

(** More rounds than the string has units change nothing. *)
Lemma replace_loop_fuel r f input n1 n2 s :
  length s < n1 → length s < n2 →
  replace_loop n1 r f input s = replace_loop n2 r f input s.
Proof.
  revert n2 s. induction n1 as [|n1 IH]; intros n2 s H1 H2; [lia|].
  destruct n2 as [|n2]; [lia|]. simpl.
  destruct (exec_loop r input [] s) as [mr|] eqn:E; [|done].
  apply exec_loop_split in E as (pre & _ & Hs).
  apply (f_equal length) in Hs. rewrite !length_app in Hs.
  destruct (matched mr) as [|b ms]; simpl in Hs.
  - destruct (after mr) as [|a t]; [done|]. simpl in Hs.
    do 3 f_equal. apply IH; lia.
  - do 2 f_equal. apply IH; lia.
Qed.

Lemma replace_loop_input r f input1 input2 n s :
  no_assert r = true →
  replace_loop n r f input1 s = replace_loop n r f input2 s.
Proof.
  intros Hr. revert s. induction n as [|n IH]; intros s; simpl; [done|].
  rewrite (exec_loop_input r input1 input2) by done.
  destruct (exec_loop r input2 [] s) as [mr|]; [|done].
  destruct (matched mr); [|by rewrite IH].
  destruct (after mr); [done|]. by rewrite IH.
Qed.

(** One round of a global replacement. *)
Lemma replace_g_step r f s mr :
  no_assert r = true →
  exec_loop r s [] s = Some mr → matched mr ≠ [] →
  replace_g r f s = before mr ++ f mr ++ replace_g r f (after mr).
Proof.
  intros Hr E Hne. unfold replace_g.
  assert (length (after mr) < length s) as Hlen.
  { pose proof E as (pre & _ & Hs)%exec_loop_split.
    apply (f_equal length) in Hs. rewrite !length_app in Hs.
    destruct (matched mr); [done|]. simpl in Hs. lia. }
  rewrite (replace_loop_fuel r f (after mr) (S (length (after mr))) (length s))
    by lia.
  rewrite (replace_loop_input r f (after mr) s) by done.
  cbn [replace_loop]. rewrite E. by destruct (matched mr).
Qed.

End RegExpFacts.

(** ** The patterns of the class *)

Module Patterns.

Import RegExpFacts.

(** A non-empty run of units of the class [p]. *)
Definition run_of (p : N → bool) (w : list N) : bool :=
  match w with
  | [] => false
  | _ :: _ => forallb p w
  end.

Section Generic.

Context {R : Type}.
Implicit Types (s w : list N) (c : option (list N)) (k : cont R).

Lemma plus_class_greedy p input w rest c k x :
  run_of p w = true → head_in p rest = false → k rest c = Some x →
  m (Plus (Char_class p)) input (w ++ rest) c k = Some x.
Proof.
  destruct w as [|a w]; [done|]. simpl. intros Hw Hrest Hk.
  apply andb_prop in Hw as [-> Hw]. cbn [m].
  apply (star_class_greedy _ p input); [done|done|rewrite length_app; lia|done].
Qed.

(** After [^], only the start of the input will do. *)
Lemma assert_start_later r input s c k :
  length s ≠ length input → m (R:=R) (Seq Assert_start r) input s c k = None.
Proof. intros Hlen. simpl. by apply Nat.eqb_neq in Hlen as ->. Qed.

(** [\s*] followed by something that wants the unit [a0], not a space:
    [a0] is the first unit that is not a space. *)
Lemma spaces_then fuel input s c k x a0 :
  star_loop fuel (m space input) s c k = Some x →
  (∀ s' c' y, k s' c' = Some y → head s' = Some a0) →
  JS.isSpace a0 = false →
  head (JS.trimStart s) = Some a0.
Proof.
  intros E Hk Ha0. apply star_class_inv in E as (w & s' & -> & Hw & E).
  apply Hk in E. clear Hk. induction w as [|b w IH]; simpl in *.
  - destruct s' as [|b s']; [done|]. simpl in E. simplify_eq.
    cbn [JS.trimStart]. by rewrite Ha0.
  - apply andb_prop in Hw as [-> Hw]. by apply IH.
Qed.

(** A literal word wants its first letter. *)
Lemma lit_head a word input s c k y :
  m (R:=R) (Lit_with Chr a word) input s c k = Some y →
  head s = Some (N_of_ascii a).
Proof.
  assert (∀ k', m (R:=R) (Chr a) input s c k' = Some y →
                head s = Some (N_of_ascii a)) as Hchr.
  { intros k'. unfold Chr. cbn [m]. destruct s as [|b s']; [done|].
    destruct (N_of_ascii a =? b)%N eqn:Hb; [|done].
    apply N.eqb_eq in Hb as <-. done. }
  destruct word; cbn [Lit_with m]; apply Hchr.
Qed.

End Generic.

Lemma exec_loop_anchored_later r input skipped s :
  length s < length input →
  exec_loop (Seq Assert_start r) input skipped s = None.
Proof.
  revert skipped. induction s as [|a s IH]; intros skipped Hlen.
  - cbn [exec_loop]. rewrite assert_start_later; [done|lia].
  - cbn [exec_loop]. rewrite assert_start_later by lia.
    apply IH. rewrite length_cons in Hlen. lia.
Qed.

(** A pattern that starts with [^] matches at the start or not at all. *)
Lemma js_match_anchored r line mr :
  js_match (Seq Assert_start r) line = Some mr →
  before mr = [] ∧
  m r line line None (λ s' c', Some (s', c')) = Some (after mr, group1 mr).
Proof.
  unfold js_match. destruct line as [|a line]; cbn [exec_loop].
  - cbn [m]. simpl (length [] =? length []).
    destruct (m r [] [] None _) as [[s' c']|]; [|done]. by intros [= <-].
  - cbn [m]. rewrite Nat.eqb_refl.
    destruct (m r (a :: line) (a :: line) None _) as [[s' c']|].
    + by intros [= <-].
    + rewrite exec_loop_anchored_later; [done|]. rewrite length_cons. lia.
Qed.

(** The two line patterns want their keyword first on the line. *)
Lemma FROM_REGEX_first line mr :
  js_match FROM_REGEX line = Some mr →
  head (JS.trimStart line) = Some 70%N.
Proof.
  intros E. apply js_match_anchored in E as [_ E].
  cbn [m] in E. eapply spaces_then; [apply E| |done].
  intros s' c' y. apply lit_head.
Qed.

Lemma ARG_REGEX_first line mr :
  js_match ARG_REGEX line = Some mr →
  head (JS.trimStart line) = Some 65%N.
Proof.
  intros E. apply js_match_anchored in E as [_ E].
  cbn [m] in E. eapply spaces_then; [apply E| |done].
  intros s' c' y. apply lit_head.
Qed.

Lemma ARG_or_FROM line :
  js_match ARG_REGEX line = None ∨ js_match FROM_REGEX line = None.
Proof.
  destruct (js_match ARG_REGEX line) as [a|] eqn:Ea; [|by left].
  destruct (js_match FROM_REGEX line) as [f|] eqn:Ef; [|by right].
  apply ARG_REGEX_first in Ea. apply FROM_REGEX_first in Ef. congruence.
Qed.

(** [AS_REGEX], one construct at a time. *)
Lemma AS_REGEX_unfold {R} input s c (k : cont R) :
  m AS_REGEX input s c k =
  m (Plus space) input s c (λ s1 c1,
    m (Chr_i "A") input s1 c1 (λ s2 c2,
      m (Chr_i "S") input s2 c2 (λ s3 c3,
        m (Plus space) input s3 c3 (λ s4 c4,
          m (Plus non_space) input s4 c4 k)))).
Proof. reflexivity. Qed.

Lemma letter_i_not_space a c :
  JS.isSpace (N_of_ascii a) = false → JS.isSpace (N_of_ascii a + 32) = false →
  letter_i a c = true → JS.isSpace c = false.
Proof.
  intros H1 H2. unfold letter_i. intros [->%N.eqb_eq| ->%N.eqb_eq]%orb_prop; done.
Qed.

Lemma run_of_head p w rest :
  run_of p w = true → head_in p (w ++ rest) = true.
Proof. destruct w as [|a w]; [done|]. simpl. by intros [-> _]%andb_prop. Qed.

(** The alias fragment - spaces, the word AS in either case, spaces, a run
    without spaces - is matched whole where it starts. *)
Lemma AS_REGEX_here {R} input w1 a b w2 w3 rest c (k : cont R) x :
  run_of JS.isSpace w1 = true →
  letter_i "A" a = true → letter_i "S" b = true →
  run_of JS.isSpace w2 = true →
  run_of JS.nonSpace w3 = true →
  head_in JS.nonSpace rest = false →
  k rest c = Some x →
  m AS_REGEX input (w1 ++ a :: b :: w2 ++ w3 ++ rest) c k = Some x.
Proof.
  intros Hw1 Ha Hb Hw2 Hw3 Hrest Hk. rewrite AS_REGEX_unfold.
  apply plus_class_greedy; [done| |].
  { simpl. by apply (letter_i_not_space "A"). }
  unfold Chr_i. cbn [m]. rewrite Ha, Hb.
  apply plus_class_greedy; [done| |].
  { pose proof (run_of_head _ _ rest Hw3) as Hh.
    destruct (w3 ++ rest) as [|d t]; [done|]. simpl in *.
    unfold JS.nonSpace in Hh. by destruct (JS.isSpace d). }
  by apply plus_class_greedy.
Qed.

(** It starts with a space, so it does not start in a text without. *)
Lemma AS_REGEX_not_here {R} input s c (k : cont R) :
  head_in JS.isSpace s = false → m AS_REGEX input s c k = None.
Proof.
  intros Hs. rewrite AS_REGEX_unfold. unfold Plus, space. cbn [m].
  destruct s as [|d t]; [done|]. simpl in Hs. by rewrite Hs.
Qed.

Lemma exec_loop_here r input skipped s s' c' :
  m r input s None (λ s' c', Some (s', c')) = Some (s', c') →
  exec_loop r input skipped s =
  Some (MatchResult skipped (take (length s - length s') s) c' s').
Proof. intros E. destruct s; cbn [exec_loop]; by rewrite E. Qed.

Lemma AS_REGEX_search input p w1 a b w2 w3 rest :
  forallb JS.nonSpace p = true →
  run_of JS.isSpace w1 = true →
  letter_i "A" a = true → letter_i "S" b = true →
  run_of JS.isSpace w2 = true →
  run_of JS.nonSpace w3 = true →
  head_in JS.nonSpace rest = false →
  exec_loop AS_REGEX input [] (p ++ w1 ++ a :: b :: w2 ++ w3 ++ rest) =
  Some (MatchResult p (w1 ++ a :: b :: w2 ++ w3) None rest).
Proof.
  intros Hp Hw1 Ha Hb Hw2 Hw3 Hrest.
  rewrite exec_loop_skip.
  - erewrite exec_loop_here; [|by apply AS_REGEX_here].
    simpl. do 2 f_equal.
    replace (w1 ++ a :: b :: w2 ++ w3 ++ rest)
      with ((w1 ++ a :: b :: w2 ++ w3) ++ rest)
      by (by rewrite <- !app_assoc, <- !app_comm_cons, <- app_assoc).
    by rewrite length_app, Nat.add_sub, take_app_length.
  - intros p1 p2 -> Hp2. apply AS_REGEX_not_here.
    rewrite forallb_app in Hp. apply andb_prop in Hp as [_ Hp].
    destruct p2 as [|d p2]; [done|]. simpl in *.
    apply andb_prop in Hp as [Hd _]. unfold JS.nonSpace in Hd.
    by destruct (JS.isSpace d).
Qed.

End Patterns.

(** ** Lines, one at a time *)

Section Lines.

Import Patterns.

Implicit Types (line : list N) (lines : list (list N)) (tbl : args_table).

(** The assignment an ARG line makes. *)
Definition argAssignment line : option (list N * option (list N)) :=
  match js_match ARG_REGEX line with
  | Some argMatch =>
      let argData := JS.split 61 (JS.trim (default [] (group1 argMatch))) in
      Some (default [] (js_index argData 0), js_index argData 1)
  | None => None
  end.

Lemma parseArg_assignment line tbl :
  parseArg line tbl =
  match argAssignment line with
  | Some (name, value) => <[name := value]> tbl
  | None => tbl
  end.
Proof. unfold parseArg, argAssignment. by destruct (js_match ARG_REGEX line). Qed.

(** A FROM line is parsed with the table it finds. *)
Lemma parseLine_FROM line tbl im :
  js_match FROM_REGEX line = Some im →
  parseLine line tbl =
  (let imageData := resolveImage tbl (default [] (group1 im)) in
   if decide (imageData = scratch) then None
   else Some {| image := imageData; platform := platformOf line |},
   tbl).
Proof.
  intros E. unfold parseLine. rewrite E.
  destruct (ARG_or_FROM line) as [Ha|Hf]; [|congruence].
  rewrite (parseArg_no_match _ _ Ha). simpl. by case_decide.
Qed.

Lemma parseLine_not_FROM line tbl :
  js_match FROM_REGEX line = None →
  parseLine line tbl = (None, parseArg line tbl).
Proof. intros E. unfold parseLine. by rewrite E. Qed.

Lemma parseLine_unfold line tbl :
  (parseLine line tbl).1 =
  match js_match FROM_REGEX line with
  | Some im =>
      let imageData := resolveImage tbl (default [] (group1 im)) in
      if decide (imageData = scratch) then None
      else Some {| image := imageData; platform := platformOf line |}
  | None => None
  end.
Proof.
  destruct (js_match FROM_REGEX line) as [im|] eqn:E.
  - by rewrite (parseLine_FROM _ _ _ E).
  - by rewrite (parseLine_not_FROM _ _ E).
Qed.

Lemma collectImages_replicate n line tbl r :
  (parseLine line tbl).1 = Some r →
  (collectImages (replicate n line) tbl).1 = replicate n r.
Proof.
  intros Hr.
  assert ((parseLine line tbl).2 = tbl) as Htbl.
  { destruct (js_match FROM_REGEX line) as [im|] eqn:E.
    - by rewrite (parseLine_FROM _ _ _ E).
    - rewrite (parseLine_not_FROM _ _ E) in Hr. done. }
  induction n as [|n IH]; [done|]. simpl.
  rewrite collectImages_cons, Hr, Htbl. simpl. by rewrite IH.
Qed.

(** The lines of the examples. *)
Lemma ARG_V_foo tbl :
  parseLine (JS.lit "ARG V=foo") tbl =
  (None, <[JS.lit "V" := Some (JS.lit "foo")]> tbl).
Proof.
  rewrite parseLine_not_FROM by (vm_compute; reflexivity).
  rewrite parseArg_assignment.
  by replace (argAssignment (JS.lit "ARG V=foo"))
    with (Some (JS.lit "V", Some (JS.lit "foo"))) by (vm_compute; reflexivity).
Qed.

Lemma ref_V_replaced f prefix :
  prefix = JS.lit "base:" ∨ prefix = JS.lit "img:" →
  replace_g ARGS_REF_REGEX f (prefix ++ JS.lit "${V}") =
  prefix ++ f (MatchResult prefix (JS.lit "${V}") (Some (JS.lit "V")) []) ++ [].
Proof. intros [-> | ->]; vm_compute; reflexivity. Qed.

Lemma FROM_ref_V tbl prefix v :
  prefix = JS.lit "base:" ∨ prefix = JS.lit "img:" →
  js_undefined_or_empty (tbl !! JS.lit "V") = v →
  parseLine (JS.lit "FROM " ++ prefix ++ JS.lit "${V}") tbl =
  (let imageData :=
     JS.trim (replace_g AS_REGEX (λ _, [])
                (replace_g PLATFORM_REGEX (λ _, []) (prefix ++ v))) in
   if decide (imageData = scratch) then None
   else Some {| image := imageData; platform := [] |},
   tbl).
Proof.
  intros Hp Hv.
  assert (js_match FROM_REGEX (JS.lit "FROM " ++ prefix ++ JS.lit "${V}") =
          Some (MatchResult [] (JS.lit "FROM " ++ prefix ++ JS.lit "${V}")
                  (Some (prefix ++ JS.lit "${V}")) [])) as E
    by (destruct Hp as [-> | ->]; vm_compute; reflexivity).
  rewrite (parseLine_FROM _ _ _ E).
  replace (platformOf (JS.lit "FROM " ++ prefix ++ JS.lit "${V}")) with (@nil N)
    by (destruct Hp as [-> | ->]; vm_compute; reflexivity).
  unfold resolveImage, replaceArgsInString. simpl (default _ _).
  rewrite ref_V_replaced by done. simpl (group1 _). simpl (default _ _).
  by rewrite Hv, app_nil_r.
Qed.

End Lines.

(** ** The parser's properties *)

Import Patterns.

(** The manifest of the end-to-end example, its four lines joined by LF. *)
Definition manifest_P7 : list N :=
  JS.lit "ARG VER=3.18" ++ [10%N] ++
  JS.lit "FROM --platform=linux/arm64 alpine:${VER} AS base" ++ [10%N] ++
  JS.lit "FROM scratch" ++ [10%N] ++
  JS.lit "FROM ubuntu:22.04".

(** C1.  The four-line manifest yields exactly the references
    alpine:3.18 on linux/arm64 and ubuntu:22.04 without platform, in that
    order.  For every manifest the result is in document order: whatever
    the lines above and below, a line contributes at its place the one
    reference it yields, or nothing; a line yields a reference exactly
    when the FROM pattern matches it and its image is not scratch; and a
    line repeated [n] times yields its reference [n] times. *)
Theorem collectImages_document_order :
  (collectImages (JS.split 10 manifest_P7) ∅).1 =
    [ {| image := JS.lit "alpine:3.18"; platform := JS.lit "linux/arm64" |};
      {| image := JS.lit "ubuntu:22.04"; platform := [] |} ]
  ∧ (∀ (above : list (list N)) (line : list N) (below : list (list N))
       (tbl : args_table),
       let tbl_above := (collectImages above tbl).2 in
       (collectImages (above ++ line :: below) tbl).1 =
       (collectImages above tbl).1
       ++ option_list (parseLine line tbl_above).1
       ++ (collectImages below (parseLine line tbl_above).2).1)
  ∧ (∀ (line : list N) (tbl : args_table),
       (parseLine line tbl).1 =
       match js_match FROM_REGEX line with
       | Some im =>
           let imageData := resolveImage tbl (default [] (group1 im)) in
           if decide (imageData = scratch) then None
           else Some {| image := imageData; platform := platformOf line |}
       | None => None
       end)
  ∧ (∀ (n : nat) (line : list N) (tbl : args_table) (r : IImageRef),
       (parseLine line tbl).1 = Some r →
       (collectImages (replicate n line) tbl).1 = replicate n r).
Proof.
  split; [vm_compute; reflexivity|]. split; [|split].
  - intros above line below tbl tbl_above. subst tbl_above.
    by rewrite collectImages_app, collectImages_cons.
  - apply parseLine_unfold.
  - apply collectImages_replicate.
Qed.

Lemma collectImages_document_order_witness :
  (collectImages (replicate 2 (JS.lit "FROM ubuntu:22.04")) ∅).1 =
  replicate 2 {| image := JS.lit "ubuntu:22.04"; platform := [] |}.
Proof.
  apply (proj2 (proj2 (proj2 collectImages_document_order))).
  vm_compute. reflexivity.
Defined.

(** C3.  The line ARG V=a=b stores "a" as the value of V, not "a=b": the
    assignment is split at every ['='] and only the second piece is kept,
    so a later reference to V is replaced by "a". *)
Theorem ARG_value_cut_at_second_equals :
  ∀ tbl : args_table,
    parseArg (JS.lit "ARG V=a=b") tbl = <[JS.lit "V" := Some (JS.lit "a")]> tbl
    ∧ (collectImages [JS.lit "ARG V=a=b"; JS.lit "FROM img:${V}"] tbl).1 =
      [ {| image := JS.lit "img:a"; platform := [] |} ].
Proof.
  intros tbl.
  assert (parseArg (JS.lit "ARG V=a=b") tbl =
          <[JS.lit "V" := Some (JS.lit "a")]> tbl) as Harg.
  { rewrite parseArg_assignment.
    by replace (argAssignment (JS.lit "ARG V=a=b"))
      with (Some (JS.lit "V", Some (JS.lit "a"))) by (vm_compute; reflexivity). }
  split; [done|].
  rewrite collectImages_cons.
  rewrite (parseLine_not_FROM (JS.lit "ARG V=a=b")) by (vm_compute; reflexivity).
  simpl. rewrite Harg, collectImages_cons.
  change (JS.lit "FROM img:${V}")
    with (JS.lit "FROM " ++ JS.lit "img:" ++ JS.lit "${V}").
  rewrite (FROM_ref_V _ (JS.lit "img:") (JS.lit "a"));
    [|by right|by rewrite lookup_insert_eq].
  vm_compute. reflexivity.
Qed.

(** C5.  A FROM line whose image resolves to scratch yields no reference,
    whatever else is on the line, and scratch is never the image of an
    element of the collector's result. *)
Theorem scratch_never_collected :
  ∀ (lines : list (list N)) (tbl : args_table),
    Forall (λ r, image r ≠ scratch) (collectImages lines tbl).1
    ∧ ∀ (line : list N) (im : match_result),
        js_match FROM_REGEX line = Some im →
        resolveImage tbl (default [] (group1 im)) = scratch →
        (parseLine line tbl).1 = None.
Proof.
  intros lines tbl. split.
  - apply collectImages_Forall. apply parseLine_scratch_free.
  - intros line im E Hs. rewrite (parseLine_FROM _ _ _ E). simpl.
    by rewrite decide_True.
Qed.

Lemma scratch_never_collected_witness :
  (parseLine (JS.lit "  FROM --platform=linux/amd64 scratch AS base  ") ∅).1 = None.
Proof.
  refine (proj2 (scratch_never_collected [] ∅) _
            (MatchResult []
               (JS.lit "  FROM --platform=linux/amd64 scratch AS base  ")
               (Some (JS.lit "--platform=linux/amd64 scratch AS base  ")) [])
            _ _); vm_compute; reflexivity.
Defined.

(** C7.  The references of the lines above are the same whatever follows
    them, and each is computed with the table left by the lines above it:
    after any lines, ARG V=foo followed by FROM base:${V} yields base:foo
    without platform; and when V is not set, FROM base:${V} yields base:
    even if ARG V=foo comes next. *)
Theorem substitution_uses_lines_above :
  (∀ (above below : list (list N)) (tbl : args_table),
     (collectImages (above ++ below) tbl).1 =
     (collectImages above tbl).1
     ++ (collectImages below (collectImages above tbl).2).1)
  ∧ (∀ (above below : list (list N)) (tbl : args_table),
       (collectImages
          (above ++ [JS.lit "ARG V=foo"; JS.lit "FROM base:${V}"] ++ below) tbl).1 =
       (collectImages above tbl).1
       ++ {| image := JS.lit "base:foo"; platform := [] |}
       :: (collectImages below
             (<[JS.lit "V" := Some (JS.lit "foo")]> (collectImages above tbl).2)).1)
  ∧ (∀ (below : list (list N)) (tbl : args_table),
       tbl !! JS.lit "V" = None →
       (collectImages
          ([JS.lit "FROM base:${V}"; JS.lit "ARG V=foo"] ++ below) tbl).1 =
       {| image := JS.lit "base:"; platform := [] |}
       :: (collectImages below (<[JS.lit "V" := Some (JS.lit "foo")]> tbl)).1).
Proof.
  assert (∀ tbl v, js_undefined_or_empty (tbl !! JS.lit "V") = v →
            v = JS.lit "foo" ∨ v = [] →
            parseLine (JS.lit "FROM base:${V}") tbl =
            (Some {| image := JS.lit "base:" ++ v; platform := [] |}, tbl))
    as Hfrom.
  { intros tbl v Hv Hcase.
    change (JS.lit "FROM base:${V}")
      with (JS.lit "FROM " ++ JS.lit "base:" ++ JS.lit "${V}").
    rewrite (FROM_ref_V _ (JS.lit "base:") v); [|by left|done].
    destruct Hcase as [-> | ->]; vm_compute; reflexivity. }
  split; [|split].
  - intros above below tbl. by rewrite collectImages_app.
  - intros above below tbl. rewrite collectImages_app. simpl. f_equal.
    rewrite !collectImages_cons, ARG_V_foo. simpl.
    rewrite (Hfrom _ (JS.lit "foo")); [done| |by left].
    by rewrite lookup_insert_eq.
  - intros below tbl Hunset. cbn [app].
    rewrite !collectImages_cons.
    rewrite (Hfrom _ []); [|by rewrite Hunset|by right]. cbn [fst snd].
    by rewrite ARG_V_foo.
Qed.

Lemma substitution_uses_lines_above_witness :
  (collectImages
     ([JS.lit "FROM base:${V}"; JS.lit "ARG V=foo"] ++ [JS.lit "FROM base:${V}"]) ∅).1 =
  {| image := JS.lit "base:"; platform := [] |}
  :: (collectImages [JS.lit "FROM base:${V}"]
        (<[JS.lit "V" := Some (JS.lit "foo")]> ∅)).1.
Proof.
  apply (proj2 (proj2 substitution_uses_lines_above)).
  reflexivity.
Defined.

(** C10.  No line matches both the ARG pattern and the FROM pattern, so
    no line both changes the argument table and yields a reference. *)
Theorem ARG_and_FROM_exclusive :
  ∀ line : list N,
    (js_match ARG_REGEX line = None ∨ js_match FROM_REGEX line = None)
    ∧ ∀ tbl : args_table,
        (parseLine line tbl).2 = tbl ∨ (parseLine line tbl).1 = None.
Proof.
  intros line. split; [apply ARG_or_FROM|].
  intros tbl. destruct (js_match FROM_REGEX line) as [im|] eqn:E.
  - left. by rewrite (parseLine_FROM _ _ _ E).
  - right. by rewrite (parseLine_not_FROM _ _ E).
Qed.

(** The line FROM ${UNSET}, with nothing known of UNSET, yields a
    reference whose image is the empty string. *)
Lemma FROM_unset_variable_empty_image :
  (parseLine (JS.lit "FROM ${UNSET}") ∅).1 =
  Some {| image := []; platform := [] |}.
Proof. vm_compute. reflexivity. Qed.

(** C4.  The image of every reference the parser yields is the rest of
    its FROM line after substitution, removal of platform qualifiers and
    aliases, and trimming, with the table the line found; it is never
    scratch and has no space at either end.  It can be empty. *)
Theorem image_is_trimmed_resolution :
  ∀ (line : list N) (tbl : args_table) (r : IImageRef),
    (parseLine line tbl).1 = Some r →
    (∃ im, js_match FROM_REGEX line = Some im
           ∧ image r = resolveImage tbl (default [] (group1 im)))
    ∧ image r ≠ scratch
    ∧ JS.trim (image r) = image r
    ∧ JSFacts.starts_with_space (image r) = false
    ∧ JSFacts.starts_with_space (rev (image r)) = false.
Proof.
  intros line tbl r Hr.
  assert (∃ im, js_match FROM_REGEX line = Some im
                ∧ image r = resolveImage tbl (default [] (group1 im)))
    as (im & E & Himg).
  { rewrite parseLine_unfold in Hr.
    destruct (js_match FROM_REGEX line) as [im|]; [|done].
    exists im. split; [done|]. simpl in Hr.
    case_decide; [done|]. by injection Hr as <-. }
  split; [by exists im|]. split; [by eapply parseLine_scratch_free|].
  rewrite Himg. unfold resolveImage.
  split; [apply JSFacts.trim_idem|].
  split; [apply JSFacts.trim_head|apply JSFacts.trim_last].
Qed.

Lemma image_is_trimmed_resolution_witness :
  (∃ im, js_match FROM_REGEX (JS.lit "FROM ${UNSET}") = Some im
         ∧ @nil N = resolveImage ∅ (default [] (group1 im)))
  ∧ [] ≠ scratch
  ∧ JS.trim [] = []
  ∧ JSFacts.starts_with_space [] = false
  ∧ JSFacts.starts_with_space (rev []) = false.
Proof.
  apply (image_is_trimmed_resolution (JS.lit "FROM ${UNSET}") ∅
           {| image := []; platform := [] |}).
  vm_compute. reflexivity.
Defined.

(** In FROM repo AS x y the fragment AS x is removed although it is not
    at the end: the image is repo y. *)
Lemma alias_removed_before_the_end :
  (parseLine (JS.lit "FROM repo AS x y") ∅).1 =
  Some {| image := JS.lit "repo y"; platform := [] |}.
Proof. vm_compute. reflexivity. Qed.

(** C9.  Alias removal deletes an alias fragment - spaces, AS in either
    case, spaces, a run without spaces - wherever it stands: from a text
    without spaces followed by such a fragment and a rest, what is left is
    the text, unchanged, followed by the rest with its own fragments
    removed.  With no rest, this is the removal of a trailing alias. *)
Theorem alias_removed_wherever_it_stands :
  ∀ (p w1 : list N) (a b : N) (w2 w3 rest : list N),
    forallb JS.nonSpace p = true →
    run_of JS.isSpace w1 = true →
    letter_i "A" a = true → letter_i "S" b = true →
    run_of JS.isSpace w2 = true →
    run_of JS.nonSpace w3 = true →
    RegExpFacts.head_in JS.nonSpace rest = false →
    replace_g AS_REGEX (λ _, []) (p ++ w1 ++ a :: b :: w2 ++ w3 ++ rest) =
      p ++ replace_g AS_REGEX (λ _, []) rest
    ∧ replace_g AS_REGEX (λ _, []) (p ++ w1 ++ a :: b :: w2 ++ w3) = p.
Proof.
  intros p w1 a b w2 w3 rest Hp Hw1 Ha Hb Hw2 Hw3 Hrest.
  assert (∀ rest', RegExpFacts.head_in JS.nonSpace rest' = false →
            replace_g AS_REGEX (λ _, []) (p ++ w1 ++ a :: b :: w2 ++ w3 ++ rest') =
            p ++ replace_g AS_REGEX (λ _, []) rest') as Hgen.
  { intros rest' Hrest'.
    erewrite RegExpFacts.replace_g_step;
      [|done|by apply AS_REGEX_search|].
    - done.
    - simpl. destruct w1; done. }
  split; [by apply Hgen|].
  specialize (Hgen [] eq_refl).
  change (replace_g AS_REGEX (λ _, []) []) with (@nil N) in Hgen.
  by rewrite !app_nil_r in Hgen.
Qed.

Lemma alias_removed_wherever_it_stands_witness :
  replace_g AS_REGEX (λ _, [])
    (JS.lit "repo" ++ JS.lit " " ++ 65%N :: 83%N :: JS.lit " " ++ JS.lit "x" ++ JS.lit " y") =
    JS.lit "repo" ++ replace_g AS_REGEX (λ _, []) (JS.lit " y")
  ∧ replace_g AS_REGEX (λ _, [])
      (JS.lit "repo" ++ JS.lit " " ++ 65%N :: 83%N :: JS.lit " " ++ JS.lit "x") =
    JS.lit "repo".
Proof.
  apply (alias_removed_wherever_it_stands
           (JS.lit "repo") (JS.lit " ") 65%N 83%N (JS.lit " ") (JS.lit "x")
           (JS.lit " y")); reflexivity.
Defined.

(** ** The orchestrator's properties *)

Section Runs.

Variable Err : Type.
Variable readFileSync : list N → Err + list N.
Variable imageAnalysisService : list IImageRef → IOptions → Err + list N.
Variable globalConfig : Config.

Let execute := executeDockerImageAnalysis Err readFileSync imageAnalysisService globalConfig.

(** What the run does once the file is read, by the outcome of the
    service. *)
Lemma execute_after_read filePath content :
  readFileSync filePath = inr content →
  let imgs := (collectImages (JS.split 10 content) ∅).1 in
  let opts := initial_options globalConfig in
  IO.run (execute filePath) =
  match imageAnalysisService imgs opts with
  | inr resp =>
      (inr resp,
       [Report WIN_ANALYZING_DEPENDENCIES; ImageAnalysisService imgs opts;
        Report WIN_GENERATING_DEPENDENCIES; UpdateCurrentWebviewPanel resp;
        Report WIN_SUCCESS_DEPENDENCY_ANALYSIS])
  | inl err =>
      (inl err,
       [Report WIN_ANALYZING_DEPENDENCIES; ImageAnalysisService imgs opts;
        Report WIN_FAILURE_DEPENDENCY_ANALYSIS;
        UpdateCurrentWebviewPanel error_marker])
  end.
Proof.
  intros Hread imgs opts. subst imgs opts execute.
  unfold IO.run, executeDockerImageAnalysis, new_DockerImageAnalysis,
    parseTxtDoc, runImageAnalysis, IO.try_catch, IO.settle, IO.emit,
    mbind, mret, mthrow, io_bind, io_ret, io_throw, IO.bind, IO.ret, IO.throw.
  rewrite Hread.
  destruct (collectImages (JS.split 10 content) ∅) as [imgs tbl]. simpl.
  by destruct (imageAnalysisService imgs (initial_options globalConfig)).
Qed.

End Runs.

(** A run whose analysis call rejects: the display collaborator is given
    the error marker after the failure phase is reported. *)
Lemma analysis_failure_reaches_display :
  let cfg := Build_Config [] [] [] [] [] [] [] [] [] [] [] [] [] [] in
  IO.run (executeDockerImageAnalysis unit
            (λ _, inr (JS.lit "FROM ubuntu:22.04")) (λ _ _, inl ())
            cfg (JS.lit "Dockerfile")) =
  (inl (),
   [Report WIN_ANALYZING_DEPENDENCIES;
    ImageAnalysisService
      [ {| image := JS.lit "ubuntu:22.04"; platform := [] |} ]
      (initial_options cfg);
    Report WIN_FAILURE_DEPENDENCY_ANALYSIS;
    UpdateCurrentWebviewPanel (JS.lit "error")]).
Proof. vm_compute. reflexivity. Qed.

(** C2.  When the analysis call rejects, the run reports the analyzing
    phase, makes the call, reports the failure phase once, gives the error
    marker to the display collaborator once, and rejects with the same
    reason. *)
Theorem analysis_failure_reported_and_displayed :
  ∀ (Err : Type) (readFileSync : list N → Err + list N)
    (imageAnalysisService : list IImageRef → IOptions → Err + list N)
    (globalConfig : Config) (filePath content : list N) (err : Err),
    let imgs := (collectImages (JS.split 10 content) ∅).1 in
    let opts := initial_options globalConfig in
    readFileSync filePath = inr content →
    imageAnalysisService imgs opts = inl err →
    IO.run (executeDockerImageAnalysis Err readFileSync imageAnalysisService
              globalConfig filePath) =
    (inl err,
     [Report WIN_ANALYZING_DEPENDENCIES; ImageAnalysisService imgs opts;
      Report WIN_FAILURE_DEPENDENCY_ANALYSIS;
      UpdateCurrentWebviewPanel error_marker]).
Proof.
  intros Err readFileSync service cfg filePath content err imgs opts Hread Hrej.
  rewrite (execute_after_read _ _ _ _ _ _ Hread). fold imgs opts.
  by rewrite Hrej.
Qed.

Lemma analysis_failure_reported_and_displayed_witness :
  let cfg := Build_Config [] [] [] [] [] [] [] [] [] [] [] [] [] [] in
  let imgs := (collectImages (JS.split 10 (JS.lit "FROM ubuntu:22.04")) ∅).1 in
  IO.run (executeDockerImageAnalysis unit
            (λ _, inr (JS.lit "FROM ubuntu:22.04")) (λ _ _, inl ()) cfg []) =
  (inl (),
   [Report WIN_ANALYZING_DEPENDENCIES;
    ImageAnalysisService imgs (initial_options cfg);
    Report WIN_FAILURE_DEPENDENCY_ANALYSIS;
    UpdateCurrentWebviewPanel error_marker]).
Proof.
  intros cfg imgs.
  apply (analysis_failure_reported_and_displayed unit
           (λ _, inr (JS.lit "FROM ubuntu:22.04")) (λ _ _, inl ()) cfg []
           (JS.lit "FROM ubuntu:22.04") ()); reflexivity.
Defined.

(** C6.  When the manifest cannot be read, the run gives the error marker
    to the display collaborator once, does nothing else - no progress
    report, no analysis call - and rejects with the read error. *)
Theorem read_failure_displayed_and_rethrown :
  ∀ (Err : Type) (readFileSync : list N → Err + list N)
    (imageAnalysisService : list IImageRef → IOptions → Err + list N)
    (globalConfig : Config) (filePath : list N) (err : Err),
    readFileSync filePath = inl err →
    IO.run (executeDockerImageAnalysis Err readFileSync imageAnalysisService
              globalConfig filePath) =
    (inl err, [UpdateCurrentWebviewPanel error_marker]).
Proof.
  intros Err readFileSync service cfg filePath err Hread.
  unfold IO.run, executeDockerImageAnalysis, new_DockerImageAnalysis,
    parseTxtDoc, IO.try_catch, IO.settle, IO.emit,
    mbind, mret, mthrow, io_bind, io_ret, io_throw, IO.bind, IO.ret, IO.throw.
  by rewrite Hread.
Qed.

Lemma read_failure_displayed_and_rethrown_witness :
  IO.run (executeDockerImageAnalysis unit (λ _, inl ()) (λ _ _, inr [])
            (Build_Config [] [] [] [] [] [] [] [] [] [] [] [] [] [])
            (JS.lit "Dockerfile")) =
  (inl (), [UpdateCurrentWebviewPanel error_marker]).
Proof.
  apply (read_failure_displayed_and_rethrown unit (λ _, inl ()) (λ _ _, inr [])).
  reflexivity.
Defined.

(** C8.  When the manifest is read and the analysis call resolves with
    [s], the run reports the analyzing phase, then makes the call, then
    reports the generating phase, then gives [s] to the display
    collaborator, then reports success, and resolves to [s]. *)
Theorem success_phases_in_order :
  ∀ (Err : Type) (readFileSync : list N → Err + list N)
    (imageAnalysisService : list IImageRef → IOptions → Err + list N)
    (globalConfig : Config) (filePath content s : list N),
    let imgs := (collectImages (JS.split 10 content) ∅).1 in
    let opts := initial_options globalConfig in
    readFileSync filePath = inr content →
    imageAnalysisService imgs opts = inr s →
    IO.run (executeDockerImageAnalysis Err readFileSync imageAnalysisService
              globalConfig filePath) =
    (inr s,
     [Report WIN_ANALYZING_DEPENDENCIES; ImageAnalysisService imgs opts;
      Report WIN_GENERATING_DEPENDENCIES; UpdateCurrentWebviewPanel s;
      Report WIN_SUCCESS_DEPENDENCY_ANALYSIS]).
Proof.
  intros Err readFileSync service cfg filePath content s imgs opts Hread Hres.
  rewrite (execute_after_read _ _ _ _ _ _ Hread). fold imgs opts.
  by rewrite Hres.
Qed.

Lemma success_phases_in_order_witness :
  let cfg := Build_Config [] [] [] [] [] [] [] [] [] [] [] [] [] [] in
  let imgs := (collectImages (JS.split 10 (JS.lit "FROM ubuntu:22.04")) ∅).1 in
  IO.run (executeDockerImageAnalysis unit
            (λ _, inr (JS.lit "FROM ubuntu:22.04"))
            (λ _ _, inr (JS.lit "<html></html>")) cfg []) =
  (inr (JS.lit "<html></html>"),
   [Report WIN_ANALYZING_DEPENDENCIES;
    ImageAnalysisService imgs (initial_options cfg);
    Report WIN_GENERATING_DEPENDENCIES;
    UpdateCurrentWebviewPanel (JS.lit "<html></html>");
    Report WIN_SUCCESS_DEPENDENCY_ANALYSIS]).
Proof.
  intros cfg imgs.
  apply (success_phases_in_order unit
           (λ _, inr (JS.lit "FROM ubuntu:22.04"))
           (λ _ _, inr (JS.lit "<html></html>")) cfg []
           (JS.lit "FROM ubuntu:22.04") (JS.lit "<html></html>")); reflexivity.
Defined.

(** * Further properties of the parser and of the run *)

(** ** Scanning: what the patterns amount to *)

Module Scan.

Import RegExpFacts Patterns.

(** The longest prefix of units of [p], and what follows it. *)
Fixpoint span (p : N → bool) (s : list N) : list N :=
  match s with
  | a :: s' => if p a then a :: span p s' else []
  | [] => []
  end.

Fixpoint skip (p : N → bool) (s : list N) : list N :=
  match s with
  | a :: s' => if p a then skip p s' else s
  | [] => []
  end.

(** [s] without the prefix [pre], when it has it. *)
Fixpoint strip (pre s : list N) : option (list N) :=
  match pre with
  | [] => Some s
  | a :: pre' =>
      match s with
      | b :: s' => if (a =? b)%N then strip pre' s' else None
      | [] => None
      end
  end.

(** The class of the dot. *)
Definition notLT (c : N) : bool := negb (JS.isLineTerminator c).

Lemma span_skip p s : span p s ++ skip p s = s.
Proof.
  induction s as [|a s IH]; simpl; [done|].
  destruct (p a); simpl; [by rewrite IH|done].
Qed.

Lemma span_all p s : forallb p (span p s) = true.
Proof.
  induction s as [|a s IH]; simpl; [done|].
  destruct (p a) eqn:Ha; simpl; [by rewrite Ha|done].
Qed.

Lemma skip_head p s : head_in p (skip p s) = false.
Proof.
  induction s as [|a s IH]; simpl; [done|].
  destruct (p a) eqn:Ha; simpl; done.
Qed.

Lemma span_skip_app p w rest :
  forallb p w = true → head_in p rest = false →
  span p (w ++ rest) = w ∧ skip p (w ++ rest) = rest.
Proof.
  intros Hw Hrest. induction w as [|a w IH]; simpl in *.
  - destruct rest as [|b rest]; [done|]. simpl in *. by rewrite Hrest.
  - apply andb_prop in Hw as [-> Hw]. destruct (IH Hw) as [-> ->]. done.
Qed.

Lemma trimStart_skip s : JS.trimStart s = skip JS.isSpace s.
Proof. induction s as [|a s IH]; simpl; [done|]. by rewrite IH. Qed.

Lemma strip_app pre s : strip pre (pre ++ s) = Some s.
Proof.
  induction pre as [|a pre IH]; simpl; [done|]. by rewrite N.eqb_refl.
Qed.

Lemma strip_Some pre s s' : strip pre s = Some s' → s = pre ++ s'.
Proof.
  revert s. induction pre as [|a pre IH]; intros s; simpl.
  - by intros [= ->].
  - destruct s as [|b s]; [done|].
    destruct (a =? b)%N eqn:Hab; [|done].
    apply N.eqb_eq in Hab as ->. by intros ->%IH.
Qed.

Section Exact.

Context {R : Type}.
Implicit Types (s w : list N) (c : option (list N)) (k : cont R).

(** [p*] before something that refuses every unit of [p]: the whole run
    of units of [p] is consumed, and there is nothing to go back to. *)
Lemma star_class_exact fuel p input s c k :
  length s ≤ fuel →
  (∀ s', head_in p s' = true → k s' c = None) →
  star_loop fuel (m (Char_class p) input) s c k = k (skip p s) c.
Proof.
  intros Hfuel Hk. revert fuel Hfuel.
  induction s as [|a s IH]; intros fuel Hfuel; rewrite star_class_unfold.
  - by destruct fuel.
  - rewrite length_cons in Hfuel. destruct fuel as [|fuel]; [lia|].
    simpl. destruct (p a) eqn:Ha; [|done].
    rewrite IH by lia.
    destruct (k (skip p s) c) eqn:E; [done|].
    apply Hk. simpl. done.
Qed.

(** [p*] before something that accepts after the whole run. *)
Lemma star_class_max fuel p input s c k x :
  length s ≤ fuel → k (skip p s) c = Some x →
  star_loop fuel (m (Char_class p) input) s c k = Some x.
Proof.
  intros Hfuel Hk. rewrite <- (span_skip p s) at 1.
  apply star_class_greedy; [apply span_all|apply skip_head| |done].
  rewrite <- (span_skip p s), length_app in Hfuel. lia.
Qed.

(** A literal word strips itself off. *)
Lemma lit_exact a word input s c k :
  m (Lit_with Chr a word) input s c k =
  match strip (JS.lit (String a word)) s with
  | Some s' => k s' c
  | None => None
  end.
Proof.
  revert a s k. induction word as [|b word IH]; intros a s k.
  - cbn [Lit_with]. unfold Chr. cbn [m].
    change (JS.lit (String a "")) with [N_of_ascii a]. cbn [strip].
    destruct s as [|d s]; [done|]. by destruct (N_of_ascii a =? d)%N.
  - cbn [Lit_with]. unfold Chr at 1. cbn [m].
    change (JS.lit (String a (String b word)))
      with (N_of_ascii a :: JS.lit (String b word)). cbn [strip].
    destruct s as [|d s]; [done|].
    destruct (N_of_ascii a =? d)%N; [apply IH|done].
Qed.

End Exact.

(** A line pattern: [^], spaces, the keyword, spaces, the rest of the
    line captured. *)
Definition anchored (kw : string) : regex :=
  Seq Assert_start
    (Seq (Star space) (Seq (Lit kw) (Seq (Plus space) (Group (Star dot))))).

(** The same by scanning: skip the spaces, strip the keyword, want a
    space, skip the spaces, take up to the first line terminator. *)
Definition directive (kw : string) (line : list N) : option match_result :=
  match strip (JS.lit kw) (JS.trimStart line) with
  | Some (a :: tail) =>
      if JS.isSpace a then
        let text := JS.trimStart tail in
        Some (MatchResult []
                (take (length line - length (skip notLT text)) line)
                (Some (span notLT text))
                (skip notLT text))
      else None
  | _ => None
  end.

Lemma js_match_anchored_exact r line :
  js_match (Seq Assert_start r) line =
  match m r line line None (λ s' c', Some (s', c')) with
  | Some (s', c') =>
      Some (MatchResult [] (take (length line - length s') line) c' s')
  | None => None
  end.
Proof.
  unfold js_match. destruct line as [|a line]; cbn [exec_loop m].
  - simpl (length [] =? length []).
    by destruct (m r [] [] None _) as [[s' c']|].
  - rewrite Nat.eqb_refl.
    destruct (m r (a :: line) (a :: line) None _) as [[s' c']|]; [done|].
    apply exec_loop_anchored_later. rewrite length_cons. lia.
Qed.

Lemma take_span p s : take (length s - length (skip p s)) s = span p s.
Proof.
  rewrite <- (span_skip p s) at 1 3.
  by rewrite length_app, Nat.add_sub, take_app_length.
Qed.

Lemma m_Seq {R} r1 r2 input s c (k : cont R) :
  m (Seq r1 r2) input s c k = m r1 input s c (λ s' c', m r2 input s' c' k).
Proof. reflexivity. Qed.

Lemma m_Star {R} r input s c (k : cont R) :
  m (Star r) input s c k = star_loop (length s) (m r input) s c k.
Proof. reflexivity. Qed.

Lemma m_Group {R} r input s c (k : cont R) :
  m (Group r) input s c k =
  m r input s c (λ s' _, k s' (Some (take (length s - length s') s))).
Proof. reflexivity. Qed.

Lemma m_Plus_class {R} p input s c (k : cont R) :
  m (Plus (Char_class p)) input s c k =
  match s with
  | a :: s' =>
      if p a then star_loop (length s') (m (Char_class p) input) s' c k
      else None
  | [] => None
  end.
Proof. by destruct s. Qed.

Lemma anchored_scans a word line :
  JS.isSpace (N_of_ascii a) = false →
  js_match (anchored (String a word)) line = directive (String a word) line.
Proof.
  intros Ha. unfold anchored, directive. rewrite js_match_anchored_exact.
  rewrite m_Seq, m_Star. unfold space at 1.
  rewrite star_class_exact; [|done|].
  2:{ intros [|d s'] Hd; [done|]. simpl in Hd.
      rewrite m_Seq. cbn [Lit]. rewrite lit_exact.
      change (JS.lit (String a word)) with (N_of_ascii a :: JS.lit word).
      cbn [strip]. destruct (N_of_ascii a =? d)%N eqn:Had; [|done].
      apply N.eqb_eq in Had as <-. congruence. }
  rewrite m_Seq. cbn [Lit]. rewrite lit_exact, <- trimStart_skip.
  destruct (strip _ (JS.trimStart line)) as [[|d tail]|]; [done| |done].
  rewrite m_Seq. unfold space. rewrite m_Plus_class.
  destruct (JS.isSpace d); [|done].
  rewrite (star_class_max _ _ _ _ _ _
             (skip notLT (JS.trimStart tail),
              Some (span notLT (JS.trimStart tail)))); [done|done|].
  rewrite <- trimStart_skip, m_Group, m_Star.
  unfold dot. fold notLT.
  rewrite (star_class_max _ _ _ _ _ _
             (skip notLT (JS.trimStart tail),
              Some (span notLT (JS.trimStart tail)))); [done|done|].
  by rewrite take_span.
Qed.

End Scan.

(** ** Text the patterns leave alone *)

Module Plain.

Import RegExpFacts Patterns Scan.

(** No unit of [s] is [x]. *)
Definition without (x : N) (s : list N) : bool :=
  forallb (λ c, negb (c =? x)%N) s.

Lemma without_app x s1 s2 :
  without x (s1 ++ s2) = without x s1 && without x s2.
Proof. apply forallb_app. Qed.

Lemma without_head x s : without x s = true → head s ≠ Some x.
Proof.
  destruct s as [|a s]; [done|]. simpl.
  intros [Ha _]%andb_prop [= ->]. by rewrite N.eqb_refl in Ha.
Qed.

Lemma space_is_not x c :
  JS.isSpace x = false → JS.isSpace c = true → negb (c =? x)%N = true.
Proof.
  intros Hx Hc. destruct (c =? x)%N eqn:E; [|done].
  apply N.eqb_eq in E. congruence.
Qed.

Lemma spaces_without x s :
  JS.isSpace x = false → forallb JS.isSpace s = true → without x s = true.
Proof.
  intros Hx. induction s as [|a s IH]; simpl; [done|].
  intros [Ha Hs]%andb_prop. by rewrite (space_is_not x a), IH.
Qed.

(** A search that fails wherever it starts finds nothing. *)
Lemma exec_loop_none r input skipped s :
  (∀ w1 w2, s = w1 ++ w2 →
     m r input w2 None (λ s' c', Some (s', c')) = None) →
  exec_loop r input skipped s = None.
Proof.
  revert skipped. induction s as [|a s IH]; intros skipped Hfail.
  - cbn [exec_loop]. by rewrite (Hfail [] []).
  - cbn [exec_loop]. rewrite (Hfail [] (a :: s)) by done.
    apply IH. intros w1 w2 ->. by apply (Hfail (a :: w1) w2).
Qed.

Lemma replace_g_unchanged r f s :
  (∀ w1 w2, s = w1 ++ w2 →
     m r s w2 None (λ s' c', Some (s', c')) = None) →
  replace_g r f s = s.
Proof.
  intros Hfail. unfold replace_g. cbn [replace_loop].
  by rewrite exec_loop_none.
Qed.

Lemma match_g_nothing r s :
  (∀ w1 w2, s = w1 ++ w2 →
     m r s w2 None (λ s' c', Some (s', c')) = None) →
  match_g r s = None.
Proof.
  intros Hfail. unfold match_g. cbn [match_loop].
  by rewrite exec_loop_none.
Qed.

(** Where each pattern cannot start. *)
Lemma ARGS_REF_REGEX_not_here {R} input s c (k : cont R) :
  head s ≠ Some 36%N → m ARGS_REF_REGEX input s c k = None.
Proof.
  intros Hs. destruct (m ARGS_REF_REGEX input s c k) as [y|] eqn:E; [|done].
  unfold ARGS_REF_REGEX in E. rewrite m_Seq in E. cbn [Lit] in E.
  by apply lit_head in E.
Qed.

Lemma PLATFORM_REGEX_not_here {R} input s c (k : cont R) :
  without 61 s = true → m PLATFORM_REGEX input s c k = None.
Proof.
  intros Hs. unfold PLATFORM_REGEX. rewrite m_Seq. cbn [Lit].
  rewrite lit_exact.
  destruct (strip _ s) as [s'|] eqn:E; [|done].
  apply strip_Some in E as ->. rewrite without_app in Hs.
  apply andb_prop in Hs as [Hs _]. by vm_compute in Hs.
Qed.

Lemma nonSpace_head s :
  forallb JS.nonSpace s = true → head_in JS.isSpace s = false.
Proof.
  destruct s as [|a s]; [done|]. simpl. unfold JS.nonSpace.
  intros [Ha _]%andb_prop. by destruct (JS.isSpace a).
Qed.

Lemma replaceArgsInString_unchanged tbl s :
  without 36 s = true → replaceArgsInString tbl s = s.
Proof.
  intros Hs. unfold replaceArgsInString. apply replace_g_unchanged.
  intros w1 w2 ->. apply ARGS_REF_REGEX_not_here.
  rewrite without_app in Hs. apply andb_prop in Hs as [_ Hs].
  by apply without_head.
Qed.

Lemma platform_removal_unchanged f s :
  without 61 s = true → replace_g PLATFORM_REGEX f s = s.
Proof.
  intros Hs. apply replace_g_unchanged.
  intros w1 w2 ->. apply PLATFORM_REGEX_not_here.
  rewrite without_app in Hs. by apply andb_prop in Hs as [_ Hs].
Qed.


Lemma platformOf_nothing line : without 61 line = true → platformOf line = [].
Proof.
  intros Hs. unfold platformOf. rewrite match_g_nothing; [done|].
  intros w1 w2 ->. apply PLATFORM_REGEX_not_here.
  rewrite without_app in Hs. by apply andb_prop in Hs as [_ Hs].
Qed.

Lemma forallb_rev (p : N → bool) s : forallb p (rev s) = forallb p s.
Proof.
  induction s as [|a s IH]; simpl; [done|].
  rewrite forallb_app, IH. simpl. rewrite andb_true_r. apply andb_comm.
Qed.

Lemma trim_unchanged s : forallb JS.nonSpace s = true → JS.trim s = s.
Proof.
  intros Hs. unfold JS.trim, JS.trimEnd.
  rewrite (JSFacts.trimStart_id s) by by apply nonSpace_head.
  rewrite JSFacts.trimStart_id; [apply rev_involutive|].
  apply nonSpace_head. by rewrite forallb_rev.
Qed.

(** The line patterns on a line written out: indentation, the keyword,
    a gap, the text up to a line terminator or the end. *)
Lemma directive_written a word indent gap text trailer :
  JS.isSpace (N_of_ascii a) = false →
  forallb JS.isSpace indent = true →
  run_of JS.isSpace gap = true →
  forallb notLT text = true →
  head_in JS.isSpace (text ++ trailer) = false →
  head_in notLT trailer = false →
  directive (String a word)
    (indent ++ JS.lit (String a word) ++ gap ++ text ++ trailer) =
  Some (MatchResult [] (indent ++ JS.lit (String a word) ++ gap ++ text)
          (Some text) trailer).
Proof.
  intros Ha Hindent Hgap Htext Hhead Htrailer. unfold directive.
  rewrite trimStart_skip.
  destruct (span_skip_app JS.isSpace indent
              (JS.lit (String a word) ++ gap ++ text ++ trailer))
    as [_ ->]; [done|done|].
  rewrite strip_app. destruct gap as [|g gap]; [done|]. simpl in Hgap.
  apply andb_prop in Hgap as [Hg Hgap]. rewrite <- app_comm_cons, Hg.
  cbn zeta. rewrite trimStart_skip.
  destruct (span_skip_app JS.isSpace gap (text ++ trailer)) as [_ ->];
    [done|done|].
  destruct (span_skip_app notLT text trailer) as [-> ->]; [done|done|].
  do 2 f_equal.
  set (x := indent ++ JS.lit (String a word) ++ (g :: gap) ++ text).
  assert (indent ++ JS.lit (String a word) ++ g :: gap ++ text ++ trailer
          = x ++ trailer) as ->
    by (subst x; by rewrite <- !app_assoc).
  by rewrite length_app, Nat.add_sub, take_app_length.
Qed.

End Plain.

(** ** Pieces and joins *)

Module Pieces.

Import Plain.

(** The pieces put together again with the separator between them; its
    [Array.prototype.join]. *)
Fixpoint join (sep : N) (pieces : list (list N)) : list N :=
  match pieces with
  | [] => []
  | [p] => p
  | p :: ps => p ++ sep :: join sep ps
  end.

Lemma split_not_nil sep s : JS.split sep s ≠ [].
Proof.
  destruct s as [|a s]; simpl; [done|].
  destruct (a =? sep)%N; [done|]. by destruct (JS.split sep s).
Qed.

Lemma join_cons sep p ps :
  ps ≠ [] → join sep (p :: ps) = p ++ sep :: join sep ps.
Proof. by destruct ps. Qed.

Lemma join_split sep s : join sep (JS.split sep s) = s.
Proof.
  induction s as [|a s IH]; simpl; [done|].
  pose proof (split_not_nil sep s) as Hne.
  destruct (a =? sep)%N eqn:Ha.
  - apply N.eqb_eq in Ha as ->. rewrite join_cons by done. simpl. by rewrite IH.
  - destruct (JS.split sep s) as [|p ps]; [done|].
    destruct ps as [|q ps]; simpl in *; by rewrite IH.
Qed.

Lemma split_without_sep sep s :
  Forall (λ piece, without sep piece = true) (JS.split sep s).
Proof.
  induction s as [|a s IH]; simpl; [by repeat constructor|].
  destruct (a =? sep)%N eqn:Ha; [by constructor|].
  destruct (JS.split sep s) as [|p ps]; simpl.
  - repeat constructor. simpl. by rewrite Ha.
  - inversion_clear IH as [|?? Hp Hps]. constructor; [|done].
    simpl. by rewrite Ha.
Qed.

Lemma split_unsplit sep s : without sep s = true → JS.split sep s = [s].
Proof.
  induction s as [|a s IH]; simpl; [done|].
  intros [Ha Hs]%andb_prop. apply negb_true_iff in Ha. rewrite Ha.
  by rewrite IH.
Qed.

Lemma split_app sep s1 s2 :
  without sep s1 = true →
  JS.split sep (s1 ++ sep :: s2) = s1 :: JS.split sep s2.
Proof.
  induction s1 as [|a s1 IH]; simpl.
  - by rewrite N.eqb_refl.
  - intros [Ha Hs]%andb_prop. apply negb_true_iff in Ha. rewrite Ha.
    by rewrite IH.
Qed.

(** The first piece is what comes before the first separator. *)
Lemma split_head sep s :
  head (JS.split sep s) = Some (Scan.span (λ c, negb (c =? sep)%N) s).
Proof.
  induction s as [|a s IH]; simpl; [done|].
  destruct (a =? sep)%N; simpl; [done|].
  destruct (JS.split sep s) as [|p ps]; [done|]. simpl in *.
  by injection IH as ->.
Qed.

End Pieces.

(** ** References and qualifiers where they stand *)

Module Found.

Import RegExpFacts Patterns Scan Plain Pieces.

Lemma take_front (x y : list N) : take (length (x ++ y) - length y) (x ++ y) = x.
Proof. by rewrite length_app, Nat.add_sub, take_app_length. Qed.

(** A reference [${key}] is matched where it starts. *)
Lemma ARGS_REF_REGEX_here {R} input key rest c (k : cont R) x :
  run_of not_brace key = true →
  k rest (Some key) = Some x →
  m ARGS_REF_REGEX input (JS.lit "${" ++ key ++ 125%N :: rest) c k = Some x.
Proof.
  intros Hkey Hk. unfold ARGS_REF_REGEX. rewrite m_Seq. cbn [Lit].
  rewrite lit_exact, strip_app, m_Seq, m_Group.
  apply plus_class_greedy; [done|done|].
  change (Lit "}") with (Lit_with Chr "}" ""). rewrite lit_exact.
  change (JS.lit "}") with [125%N]. cbn [strip]. rewrite N.eqb_refl.
  by rewrite take_front.
Qed.

Lemma ARGS_REF_REGEX_search input p key rest :
  without 36 p = true → run_of not_brace key = true →
  exec_loop ARGS_REF_REGEX input [] (p ++ JS.lit "${" ++ key ++ 125%N :: rest) =
  Some (MatchResult p (JS.lit "${" ++ key ++ [125%N]) (Some key) rest).
Proof.
  intros Hp Hkey. rewrite exec_loop_skip.
  - erewrite exec_loop_here; [|by apply ARGS_REF_REGEX_here].
    assert (JS.lit "${" ++ key ++ 125%N :: rest
            = (JS.lit "${" ++ key ++ [125%N]) ++ rest) as ->
      by (by rewrite <- !app_assoc).
    by rewrite take_front.
  - intros p1 p2 -> Hp2. apply ARGS_REF_REGEX_not_here.
    rewrite without_app in Hp. apply andb_prop in Hp as [_ Hp].
    destruct p2 as [|d p2]; [done|]. by apply (without_head 36 (d :: p2)).
Qed.

Lemma replaceArgsInString_step tbl p key rest :
  without 36 p = true → run_of not_brace key = true →
  replaceArgsInString tbl (p ++ JS.lit "${" ++ key ++ 125%N :: rest) =
  p ++ js_undefined_or_empty (tbl !! key) ++ replaceArgsInString tbl rest.
Proof.
  intros Hp Hkey. unfold replaceArgsInString.
  erewrite replace_g_step; [|done|by apply ARGS_REF_REGEX_search|done].
  done.
Qed.

(** A platform qualifier is matched where it starts, up to the next
    space. *)
Lemma PLATFORM_REGEX_here {R} input v rest c (k : cont R) x :
  run_of JS.nonSpace v = true → head_in JS.nonSpace rest = false →
  k rest (Some v) = Some x →
  m PLATFORM_REGEX input (JS.lit "--platform=" ++ v ++ rest) c k = Some x.
Proof.
  intros Hv Hrest Hk. unfold PLATFORM_REGEX. rewrite m_Seq. cbn [Lit].
  rewrite lit_exact, strip_app, m_Group.
  apply plus_class_greedy; [done|done|]. by rewrite take_front.
Qed.

Lemma without_lookup x (s : list N) i : without x s = true → s !! i ≠ Some x.
Proof.
  revert i. induction s as [|a s IH]; intros i; [done|]. simpl.
  intros [Ha Hs]%andb_prop. destruct i as [|i]; simpl; [|by apply IH].
  intros [= ->]. by rewrite N.eqb_refl in Ha.
Qed.

(** The qualifier's own ['='] is its last unit but for the value, so the
    pattern cannot start in a text without ['='] before a qualifier. *)
Lemma PLATFORM_REGEX_not_before {R} input (w : list N) tail c (k : cont R) :
  w ≠ [] → without 61 w = true →
  m PLATFORM_REGEX input (w ++ JS.lit "--platform=" ++ tail) c k = None.
Proof.
  intros Hne Hw. unfold PLATFORM_REGEX. rewrite m_Seq. cbn [Lit].
  rewrite lit_exact.
  destruct (strip _ _) as [s'|] eqn:E; [|done]. exfalso.
  apply strip_Some in E. apply (f_equal (λ l, l !! 10)) in E.
  change ((JS.lit "--platform=" ++ s') !! 10) with (Some 61%N) in E.
  destruct (decide (10 < length w)) as [Hlt|Hge].
  - rewrite lookup_app_l in E by done. by apply without_lookup in E.
  - rewrite lookup_app_r in E by lia.
    assert (length w ≠ 0) by (by destruct w).
    assert (10 - length w < 10) as Hj by lia.
    rewrite lookup_app_l in E by (change (length (JS.lit "--platform=")) with 11; lia).
    revert E Hj. generalize (10 - length w). intros j E Hj.
    do 10 (destruct j as [|j]; [done|]). lia.
Qed.

Lemma PLATFORM_REGEX_search input p v rest :
  without 61 p = true →
  run_of JS.nonSpace v = true → head_in JS.nonSpace rest = false →
  exec_loop PLATFORM_REGEX input [] (p ++ JS.lit "--platform=" ++ v ++ rest) =
  Some (MatchResult p (JS.lit "--platform=" ++ v) (Some v) rest).
Proof.
  intros Hp Hv Hrest. rewrite exec_loop_skip.
  - erewrite exec_loop_here; [|by apply PLATFORM_REGEX_here].
    rewrite (app_assoc (JS.lit "--platform=") v rest). by rewrite take_front.
  - intros p1 p2 -> Hp2. apply PLATFORM_REGEX_not_before; [done|].
    rewrite without_app in Hp. by apply andb_prop in Hp as [_ Hp].
Qed.

Lemma platformOf_found p v rest :
  without 61 p = true →
  run_of JS.nonSpace v = true → head_in JS.nonSpace rest = false →
  platformOf (p ++ JS.lit "--platform=" ++ v ++ rest)
    = span (λ c, negb (c =? 61)%N) v.
Proof.
  intros Hp Hv Hrest.
  unfold platformOf, match_g. cbn [match_loop].
  rewrite PLATFORM_REGEX_search by done. cbn [matched after].
  set (others := match JS.lit "--platform=" ++ v with [] => _ | _ => _ end).
  change (js_index ((JS.lit "--platform=" ++ v) :: others) 0)
    with (Some (JS.lit "--platform=" ++ v)).
  change (default [] (Some (JS.lit "--platform=" ++ v)))
    with (JS.lit "--platform" ++ 61%N :: v).
  rewrite split_app by done.
  pose proof (split_head 61 v) as Hhead.
  destruct (JS.split 61 v) as [|piece pieces]; [done|].
  simpl in Hhead. by injection Hhead as ->.
Qed.

End Found.

(** ** Lines as they are written *)

Module Written.

Import RegExpFacts Patterns Scan Plain Pieces Found.

Lemma nonSpace_notLT s : forallb JS.nonSpace s = true → forallb notLT s = true.
Proof.
  induction s as [|a s IH]; simpl; [done|].
  intros [Ha Hs]%andb_prop. rewrite IH by done.
  unfold JS.nonSpace, JS.isSpace, notLT in *.
  destruct (JS.isLineTerminator a); [|done]. by rewrite orb_true_r in Ha.
Qed.

Lemma FROM_REGEX_scans line : js_match FROM_REGEX line = directive "FROM" line.
Proof. by apply (anchored_scans "F" "ROM"). Qed.

Lemma ARG_REGEX_scans line : js_match ARG_REGEX line = directive "ARG" line.
Proof. by apply (anchored_scans "A" "RG"). Qed.

(** The table after [ARG name=value], written with any indentation and
    gap, name and value without spaces or ['=']. *)
Lemma parseArg_written indent gap name value trailer tbl :
  forallb JS.isSpace indent = true →
  run_of JS.isSpace gap = true →
  forallb JS.nonSpace name = true → without 61 name = true →
  forallb JS.nonSpace value = true → without 61 value = true →
  head_in notLT trailer = false →
  parseArg (indent ++ JS.lit "ARG" ++ gap ++ name ++ 61%N :: value ++ trailer) tbl
  = <[name := Some value]> tbl.
Proof.
  intros Hindent Hgap Hname Hname' Hvalue Hvalue' Htrailer.
  assert (forallb JS.nonSpace (name ++ 61%N :: value) = true) as Htext.
  { rewrite forallb_app. simpl. by rewrite Hname, Hvalue. }
  rewrite parseArg_assignment. unfold argAssignment.
  rewrite ARG_REGEX_scans.
  replace (name ++ 61%N :: value ++ trailer)
    with ((name ++ 61%N :: value) ++ trailer) by (by rewrite <- app_assoc).
  rewrite directive_written; [|done|done|done|by apply nonSpace_notLT| |done].
  2:{ pose proof (nonSpace_head _ Htext) as Hh. by destruct name. }
  cbn [group1 default]. unfold id. rewrite trim_unchanged by done.
  rewrite split_app, split_unsplit by done. done.
Qed.


End Written.

Module WrittenFrom.

Import RegExpFacts Patterns Scan Plain Pieces Found Written.

Lemma run_of_all p w : run_of p w = true → forallb p w = true.
Proof. by destruct w. Qed.

Lemma whiteSpace_isSpace w :
  forallb JS.isWhiteSpace w = true → forallb JS.isSpace w = true.
Proof.
  induction w as [|a w IH]; simpl; [done|].
  intros [Ha Hw]%andb_prop. rewrite IH by done.
  unfold JS.isSpace. by rewrite Ha.
Qed.

Lemma whiteSpace_notLT w :
  forallb JS.isWhiteSpace w = true → forallb notLT w = true.
Proof.
  induction w as [|a w IH]; simpl; [done|].
  intros [Ha Hw]%andb_prop. rewrite IH by done. rewrite andb_true_r.
  unfold notLT. destruct (JS.isLineTerminator a) eqn:E; [|done].
  unfold JS.isLineTerminator in E.
  repeat (apply orb_prop in E as [E|E]);
    apply N.eqb_eq in E; subst a; by vm_compute in Ha.
Qed.

Lemma letter_i_is a c :
  letter_i a c = true → c = N_of_ascii a ∨ c = (N_of_ascii a + 32)%N.
Proof.
  unfold letter_i. intros [E|E]%orb_prop; apply N.eqb_eq in E; auto.
Qed.

(** A FROM line whose text has no reference and no qualifier: its image
    is the text with the aliases removed, trimmed. *)
Lemma parseLine_written indent gap text trailer image_text tbl :
  forallb JS.isSpace indent = true →
  run_of JS.isSpace gap = true →
  forallb notLT text = true →
  head_in JS.isSpace (text ++ trailer) = false →
  head_in notLT trailer = false →
  without 36 text = true →
  without 61 (text ++ trailer) = true →
  JS.trim (replace_g AS_REGEX (λ _, []) text) = image_text →
  parseLine (indent ++ JS.lit "FROM" ++ gap ++ text ++ trailer) tbl =
  (if decide (image_text = scratch) then None
   else Some {| image := image_text; platform := [] |}, tbl).
Proof.
  intros Hindent Hgap Htext Hhead Htrailer Hdollar Heq Himage.
  rewrite without_app in Heq. apply andb_prop in Heq as [Heq Heq'].
  erewrite parseLine_FROM;
    [|rewrite FROM_REGEX_scans; by apply directive_written].
  cbn [group1 default]. unfold id, resolveImage.
  rewrite replaceArgsInString_unchanged, platform_removal_unchanged by done.
  rewrite Himage, platformOf_nothing; [done|].
  rewrite !without_app, Heq, Heq'.
  rewrite (spaces_without 61 indent) by done.
  rewrite (spaces_without 61 gap) by (done || by apply run_of_all).
  done.
Qed.

(** Removing a trailing alias from a text without spaces. *)
Lemma alias_stripped img w1 a b w2 alias :
  forallb JS.nonSpace img = true →
  run_of JS.isSpace w1 = true →
  letter_i "A" a = true → letter_i "S" b = true →
  run_of JS.isSpace w2 = true →
  run_of JS.nonSpace alias = true →
  replace_g AS_REGEX (λ _, []) (img ++ w1 ++ a :: b :: w2 ++ alias) = img.
Proof.
  intros Himg Hw1 Ha Hb Hw2 Halias.
  replace (img ++ w1 ++ a :: b :: w2 ++ alias)
    with (img ++ w1 ++ a :: b :: w2 ++ alias ++ []) by (by rewrite app_nil_r).
  erewrite replace_g_step;
    [|done|by apply AS_REGEX_search|cbn [matched]; by destruct w1].
  cbn [before after].
  change (replace_g AS_REGEX (λ _, []) []) with (@nil N).
  by rewrite app_nil_r.
Qed.

End WrittenFrom.

(** ** The collector, the table and the run: shared steps *)

Section Steps.

Import Patterns.

Implicit Types (line : list N) (lines : list (list N)) (tbl : args_table).

(** Whether a line is a FROM line, an ARG line. *)
Definition isFROM line : bool :=
  match js_match FROM_REGEX line with Some _ => true | None => false end.

Definition isARG line : bool :=
  match js_match ARG_REGEX line with Some _ => true | None => false end.

Lemma parseLine_snd line tbl : (parseLine line tbl).2 = parseArg line tbl.
Proof.
  unfold parseLine. destruct (js_match FROM_REGEX line); [|done].
  by case_decide.
Qed.

Lemma collect_no_FROM lines tbl :
  forallb (λ line, negb (isFROM line)) lines = true →
  (collectImages lines tbl).1 = [].
Proof.
  revert tbl. induction lines as [|line lines IH]; intros tbl; [done|].
  simpl. intros [Hline Hlines]%andb_prop.
  rewrite collectImages_cons, parseLine_unfold. cbn [fst].
  unfold isFROM in Hline. destruct (js_match FROM_REGEX line); [done|].
  simpl. by apply IH.
Qed.

End Steps.

Section RunSteps.

Variable Err : Type.
Variable readFileSync : list N → Err + list N.
Variable imageAnalysisService : list IImageRef → IOptions → Err + list N.
Variable globalConfig : Config.


Lemma parseTxtDoc_readable filePath content :
  readFileSync filePath = inr content →
  IO.run (parseTxtDoc Err readFileSync filePath) = (inr (JS.split 10 content), []).
Proof.
  intros Hread.
  unfold IO.run, parseTxtDoc, IO.try_catch, IO.settle,
    mbind, mret, io_bind, io_ret, IO.bind, IO.ret.
  by rewrite Hread.
Qed.

End RunSteps.



Definition is_report (ev : Event) : bool :=
  match ev with Report _ => true | _ => false end.

(** ** Further properties *)

Import RegExpFacts Patterns Scan Plain Pieces Found Written WrittenFrom.

(** X1.  A manifest none of whose lines is a FROM line yields no
    reference, whatever table the collector starts with. *)
Theorem no_FROM_line_no_reference :
  ∀ (lines : list (list N)) (tbl : args_table),
    Forall (λ line, js_match FROM_REGEX line = None) lines →
    (collectImages lines tbl).1 = [].
Proof.
  intros lines tbl Hlines. apply collect_no_FROM.
  apply forallb_forall. intros line Hin.
  rewrite Forall_forall in Hlines. unfold isFROM.
  by rewrite (Hlines line) by by apply list_elem_of_In.
Qed.

Lemma no_FROM_line_no_reference_witness :
  (collectImages [JS.lit "ARG A=1"; JS.lit "# FROM base"; JS.lit "from base";
                  JS.lit "RUN make"; []] ∅).1 = [].
Proof.
  apply no_FROM_line_no_reference.
  repeat constructor.
Defined.

(** X2.  The collector yields at most one reference for each line the
    FROM pattern matches, and none for the other lines. *)
Theorem references_bounded_by_FROM_lines :
  ∀ (lines : list (list N)) (tbl : args_table),
    length (collectImages lines tbl).1 ≤ length (List.filter isFROM lines)
    ∧ length (List.filter isFROM lines) ≤ length lines.
Proof.
  intros lines tbl. split.
  - revert tbl. induction lines as [|line lines IH]; intros tbl; [done|].
    rewrite collectImages_cons, parseLine_unfold. cbn [fst List.filter].
    rewrite length_app. unfold isFROM at 1.
    specialize (IH (parseLine line tbl).2).
    destruct (js_match FROM_REGEX line) as [im|]; [|simpl; lia].
    cbn zeta. case_decide; simpl; lia.
  - induction lines as [|line lines IH]; [done|]. simpl.
    destruct (isFROM line); simpl; lia.
Qed.

(** X3.  The FROM pattern and the ARG pattern match a line exactly when,
    after its leading spaces, the line reads the keyword and then a space;
    the match starts the line, the captured text runs from the first unit
    after the spaces that follow the keyword up to the first line
    terminator or the end. *)
Theorem line_patterns_scan :
  ∀ line : list N,
    js_match FROM_REGEX line = directive "FROM" line
    ∧ js_match ARG_REGEX line = directive "ARG" line.
Proof.
  intros line. split.
  - apply FROM_REGEX_scans.
  - apply ARG_REGEX_scans.
Qed.

(** X4.  A text without ['$'] is left as it is by the substitution,
    whatever the table. *)
Theorem substitution_without_dollar :
  ∀ (tbl : args_table) (s : list N),
    without 36 s = true → replaceArgsInString tbl s = s.
Proof.
  intros tbl s Hs. unfold replaceArgsInString. apply replace_g_unchanged.
  intros w1 w2 ->. apply ARGS_REF_REGEX_not_here.
  rewrite without_app in Hs. apply andb_prop in Hs as [_ Hs].
  by apply without_head.
Qed.

Lemma substitution_without_dollar_witness :
  replaceArgsInString (<[JS.lit "VER" := Some (JS.lit "3")]> ∅)
    (JS.lit "alpine:{VER} }VER{") = JS.lit "alpine:{VER} }VER{".
Proof. apply substitution_without_dollar. reflexivity. Defined.

(** X5.  The substitution works left to right in one pass: after a text
    without ['$'], a reference to a name - a non-empty name without
    braces - gives way to the name's value in the table, or to nothing
    when the name is absent, undefined or empty; the value is put in as it
    is and the substitution goes on in what follows the reference. *)
Theorem substitution_step :
  ∀ (tbl : args_table) (p key rest : list N),
    without 36 p = true → run_of not_brace key = true →
    replaceArgsInString tbl (p ++ JS.lit "${" ++ key ++ 125%N :: rest) =
    p ++ js_undefined_or_empty (tbl !! key) ++ replaceArgsInString tbl rest.
Proof.
  intros tbl p key rest Hp Hkey. unfold replaceArgsInString.
  erewrite RegExpFacts.replace_g_step;
    [|done|by apply ARGS_REF_REGEX_search|done].
  done.
Qed.

Lemma substitution_step_witness :
  replaceArgsInString (<[JS.lit "A" := Some (JS.lit "${B}")]> ∅)
    (JS.lit "x:" ++ JS.lit "${" ++ JS.lit "A" ++ 125%N :: JS.lit "-${B}") =
  JS.lit "x:"
  ++ js_undefined_or_empty
       ((<[JS.lit "A" := Some (JS.lit "${B}")]> (∅ : args_table)) !! JS.lit "A")
  ++ replaceArgsInString (<[JS.lit "A" := Some (JS.lit "${B}")]> ∅) (JS.lit "-${B}").
Proof. apply substitution_step; reflexivity. Defined.



(** X7.  Declared, then referred to: with the table an ARG line
    name=value leaves, a reference to the name in a later text is replaced
    by the value, whatever the table was before. *)
Theorem declared_then_referenced :
  ∀ (indent gap name value trailer p rest : list N) (tbl : args_table),
    forallb JS.isSpace indent = true →
    run_of JS.isSpace gap = true →
    run_of JS.nonSpace name = true → without 61 name = true →
    run_of not_brace name = true →
    forallb JS.nonSpace value = true → without 61 value = true →
    head_in notLT trailer = false →
    without 36 p = true →
    let tbl' :=
      parseArg (indent ++ JS.lit "ARG" ++ gap ++ name ++ 61%N :: value ++ trailer)
        tbl in
    replaceArgsInString tbl' (p ++ JS.lit "${" ++ name ++ 125%N :: rest) =
    p ++ value ++ replaceArgsInString tbl' rest.
Proof.
  intros indent gap name value trailer p rest tbl
    Hindent Hgap Hname Hname' Hkey Hvalue Hvalue' Htrailer Hp tbl'.
  subst tbl'. rewrite replaceArgsInString_step by done.
  rewrite parseArg_written; try done; [|by apply run_of_all].
  by rewrite lookup_insert_eq.
Qed.

Lemma declared_then_referenced_witness :
  let tbl' :=
    parseArg ([] ++ JS.lit "ARG" ++ JS.lit " " ++ JS.lit "VER" ++ 61%N
              :: JS.lit "3.18" ++ [])
      (<[JS.lit "VER" := Some (JS.lit "1")]> ∅) in
  replaceArgsInString tbl'
    (JS.lit "alpine:" ++ JS.lit "${" ++ JS.lit "VER" ++ 125%N :: JS.lit "-slim") =
  JS.lit "alpine:" ++ JS.lit "3.18" ++ replaceArgsInString tbl' (JS.lit "-slim").
Proof. apply declared_then_referenced; reflexivity. Defined.

(** X8.  The table keeps one value for a name: an ARG line for a name
    replaces what an earlier ARG line gave it, so that the earlier line
    might as well not have been there; the name then has the later value,
    and every other name has what it had. *)
Theorem later_ARG_wins :
  ∀ (line1 line2 name : list N) (v1 v2 : option (list N)) (tbl : args_table),
    argAssignment line1 = Some (name, v1) →
    argAssignment line2 = Some (name, v2) →
    parseArg line2 (parseArg line1 tbl) = parseArg line2 tbl
    ∧ parseArg line2 (parseArg line1 tbl) !! name = Some v2
    ∧ ∀ other, other ≠ name →
        parseArg line2 (parseArg line1 tbl) !! other = tbl !! other.
Proof.
  intros line1 line2 name v1 v2 tbl H1 H2.
  rewrite !parseArg_assignment, H1, H2.
  split; [apply insert_insert_eq|]. split; [apply lookup_insert_eq|].
  intros other Hother. by rewrite !lookup_insert_ne.
Qed.

Lemma later_ARG_wins_witness :
  parseArg (JS.lit "ARG V=2") (parseArg (JS.lit "ARG V=1") ∅)
    = parseArg (JS.lit "ARG V=2") ∅
  ∧ parseArg (JS.lit "ARG V=2") (parseArg (JS.lit "ARG V=1") (∅ : args_table))
      !! JS.lit "V" = Some (Some (JS.lit "2"))
  ∧ ∀ other, other ≠ JS.lit "V" →
      parseArg (JS.lit "ARG V=2") (parseArg (JS.lit "ARG V=1") (∅ : args_table))
        !! other = (∅ : args_table) !! other.
Proof.
  apply (later_ARG_wins (JS.lit "ARG V=1") (JS.lit "ARG V=2") (JS.lit "V")
           (Some (JS.lit "1")) (Some (JS.lit "2")) ∅); reflexivity.
Defined.



(** X10.  The same line with a build-stage alias after the image -
    blanks, AS in either case, blanks, a name - yields the image without
    the alias. *)
Theorem aliased_FROM_line :
  ∀ (indent gap img w1 : list N) (a b : N) (w2 alias trailer : list N)
    (tbl : args_table),
    forallb JS.isSpace indent = true →
    run_of JS.isSpace gap = true →
    run_of JS.nonSpace img = true →
    without 36 img = true → without 61 img = true →
    run_of JS.isWhiteSpace w1 = true →
    letter_i "A" a = true → letter_i "S" b = true →
    run_of JS.isWhiteSpace w2 = true →
    run_of JS.nonSpace alias = true →
    without 36 alias = true → without 61 alias = true →
    head_in notLT trailer = false → without 61 trailer = true →
    parseLine
      (indent ++ JS.lit "FROM" ++ gap
       ++ (img ++ w1 ++ a :: b :: w2 ++ alias) ++ trailer) tbl =
    (if decide (img = scratch) then None
     else Some {| image := img; platform := [] |}, tbl).
Proof.
  intros indent gap img w1 a b w2 alias trailer tbl Hindent Hgap Himg Hdollar
    Heq Hw1 Ha Hb Hw2 Halias Hdollar' Heq' Htrailer Heq''.
  pose proof (run_of_all _ _ Himg) as Hall.
  pose proof (run_of_all _ _ Hw1) as Hall1.
  pose proof (run_of_all _ _ Hw2) as Hall2.
  pose proof (run_of_all _ _ Halias) as Hall'.
  pose proof (whiteSpace_isSpace _ Hall1) as Hs1.
  pose proof (whiteSpace_isSpace _ Hall2) as Hs2.
  assert (notLT a = true ∧ negb (a =? 36)%N = true ∧ negb (a =? 61)%N = true)
    as (Ha1 & Ha2 & Ha3) by (by destruct (letter_i_is _ _ Ha) as [-> | ->]).
  assert (notLT b = true ∧ negb (b =? 36)%N = true ∧ negb (b =? 61)%N = true)
    as (Hb1 & Hb2 & Hb3) by (by destruct (letter_i_is _ _ Hb) as [-> | ->]).
  apply parseLine_written; try done.
  - rewrite !forallb_app. simpl. rewrite forallb_app.
    rewrite (nonSpace_notLT img), (nonSpace_notLT alias) by done.
    by rewrite (whiteSpace_notLT w1), (whiteSpace_notLT w2), Ha1, Hb1 by done.
  - pose proof (nonSpace_head _ Hall) as Hh. by destruct img.
  - rewrite !without_app. simpl. rewrite without_app.
    rewrite Hdollar, Hdollar', Ha2, Hb2.
    by rewrite (spaces_without 36 w1), (spaces_without 36 w2) by done.
  - rewrite !without_app. simpl. rewrite without_app.
    rewrite Heq, Heq', Heq'', Ha3, Hb3.
    by rewrite (spaces_without 61 w1), (spaces_without 61 w2) by done.
  - rewrite alias_stripped, trim_unchanged; try done.
    + destruct w1; [done|]. by rewrite <- Hs1.
    + destruct w2; [done|]. by rewrite <- Hs2.
Qed.

Lemma aliased_FROM_line_witness :
  parseLine
    ([] ++ JS.lit "FROM" ++ JS.lit " "
     ++ (JS.lit "golang:1.21" ++ JS.lit " " ++ 97%N :: 115%N :: JS.lit " "
         ++ JS.lit "builder") ++ [13%N]) ∅ =
  (if decide (JS.lit "golang:1.21" = scratch) then None
   else Some {| image := JS.lit "golang:1.21"; platform := [] |}, ∅).
Proof. apply aliased_FROM_line; reflexivity. Defined.

(** X11.  The platform of a line is the value of its first platform
    qualifier - the qualifier that follows a text without ['='] - taken
    from the line as written, up to the next space and cut at the first
    ['='] in it; later qualifiers do not count.  A line without ['='] has
    the empty platform. *)
Theorem platform_of_first_qualifier :
  ∀ (p v rest : list N),
    without 61 p = true →
    run_of JS.nonSpace v = true → head_in JS.nonSpace rest = false →
    platformOf (p ++ JS.lit "--platform=" ++ v ++ rest)
      = span (λ c, negb (c =? 61)%N) v
    ∧ platformOf p = [].
Proof.
  intros p v rest Hp Hv Hrest. split.
  - by apply platformOf_found.
  - by apply platformOf_nothing.
Qed.

Lemma platform_of_first_qualifier_witness :
  platformOf (JS.lit "FROM " ++ JS.lit "--platform=" ++ JS.lit "linux/arm64=v8"
              ++ JS.lit " --platform=other alpine")
    = span (λ c, negb (c =? 61)%N) (JS.lit "linux/arm64=v8")
  ∧ platformOf (JS.lit "FROM ") = [].
Proof. apply platform_of_first_qualifier; reflexivity. Defined.

(** X12.  A manifest that can be read is cut at its line feeds and
    nowhere else: the lines, of which there is at least one, have no line
    feed in them and give back the content when joined by line feeds; and
    reading it tells the collaborators nothing. *)
Theorem parseTxtDoc_lines :
  ∀ (Err : Type) (readFileSync : list N → Err + list N)
    (filePath content : list N),
    readFileSync filePath = inr content →
    ∃ lines,
      IO.run (parseTxtDoc Err readFileSync filePath) = (inr lines, [])
      ∧ lines ≠ []
      ∧ Forall (λ line, without 10 line = true) lines
      ∧ join 10 lines = content.
Proof.
  intros Err readFileSync filePath content Hread.
  exists (JS.split 10 content). split; [by apply parseTxtDoc_readable|].
  split; [apply split_not_nil|].
  split; [apply split_without_sep|apply join_split].
Qed.

Lemma parseTxtDoc_lines_witness :
  ∃ lines,
    IO.run (parseTxtDoc unit
              (λ _, inr (JS.lit "FROM a" ++ [13%N; 10%N] ++ JS.lit "FROM b" ++ [10%N]))
              (JS.lit "Dockerfile")) = (inr lines, [])
    ∧ lines ≠ []
    ∧ Forall (λ line, without 10 line = true) lines
    ∧ join 10 lines = JS.lit "FROM a" ++ [13%N; 10%N] ++ JS.lit "FROM b" ++ [10%N].
Proof. apply parseTxtDoc_lines. reflexivity. Defined.


(** X14.  The service is called even when the manifest has no FROM line,
    with the empty list of images: after the analyzing phase is reported,
    the call is the second thing a run with a readable manifest does. *)
Theorem manifest_without_FROM_still_analysed :
  ∀ (Err : Type) (readFileSync : list N → Err + list N)
    (imageAnalysisService : list IImageRef → IOptions → Err + list N)
    (globalConfig : Config) (filePath content : list N),
    readFileSync filePath = inr content →
    Forall (λ line, js_match FROM_REGEX line = None) (JS.split 10 content) →
    take 2 (IO.run (executeDockerImageAnalysis Err readFileSync
                      imageAnalysisService globalConfig filePath)).2 =
    [Report WIN_ANALYZING_DEPENDENCIES;
     ImageAnalysisService [] (initial_options globalConfig)].
Proof.
  intros Err readFileSync service cfg filePath content Hread Hlines.
  rewrite (execute_after_read _ _ _ _ _ _ Hread).
  rewrite collect_no_FROM.
  - by destruct (service _ _).
  - apply forallb_forall. intros line Hin.
    rewrite Forall_forall in Hlines. unfold isFROM.
    by rewrite (Hlines line) by by apply list_elem_of_In.
Qed.

Lemma manifest_without_FROM_still_analysed_witness :
  take 2 (IO.run (executeDockerImageAnalysis unit (λ _, inr []) (λ _ _, inl ())
                    (Build_Config [] [] [] [] [] [] [] [] [] [] [] [] [] [])
                    (JS.lit "Dockerfile"))).2 =
  [Report WIN_ANALYZING_DEPENDENCIES;
   ImageAnalysisService []
     (initial_options (Build_Config [] [] [] [] [] [] [] [] [] [] [] [] [] []))].
Proof.
  apply (manifest_without_FROM_still_analysed unit (λ _, inr []) (λ _ _, inl ())
           _ _ []); [reflexivity|repeat constructor].
Defined.

(** X15.  The table the collector ends with is the one the ARG lines
    alone leave, each assigning in turn: the other lines, FROM lines
    among them, change nothing in it. *)
Theorem table_from_ARG_lines :
  ∀ (lines : list (list N)) (tbl : args_table),
    (collectImages lines tbl).2
      = foldl (λ t line, parseArg line t) tbl (List.filter isARG lines)
    ∧ (collectImages lines tbl).2
      = (collectImages (List.filter isARG lines) tbl).2.
Proof.
  assert (∀ lines tbl,
            (collectImages lines tbl).2
            = foldl (λ t line, parseArg line t) tbl (List.filter isARG lines))
    as Hfold.
  { intros lines. induction lines as [|line lines IH]; intros tbl; [done|].
    rewrite collectImages_cons, parseLine_snd. cbn [snd List.filter].
    rewrite IH. unfold isARG at 2.
    destruct (js_match ARG_REGEX line) eqn:E; [done|].
    by rewrite parseArg_no_match. }
  intros lines tbl. split; [apply Hfold|].
  rewrite (Hfold (List.filter isARG lines)), Hfold. f_equal.
  clear. induction lines as [|line lines IH]; [done|]. simpl.
  destruct (isARG line) eqn:E; simpl; [by rewrite E, <- IH|done].
Qed.

(** ** Lines with a platform qualifier *)

Module Qualified.

(** An image text that reads AS, in either case, and nothing else. *)
Definition is_AS (img : list N) : bool :=
  match img with
  | [a; b] => letter_i "A" a && letter_i "S" b
  | _ => false
  end.

Lemma span_id p s : forallb p s = true → span p s = s.
Proof.
  induction s as [|a s IH]; simpl; [done|].
  intros [-> Hs]%andb_prop. by rewrite IH.
Qed.

Lemma space_not_letter a d :
  JS.isSpace (N_of_ascii a) = false → JS.isSpace (N_of_ascii a + 32) = false →
  JS.isSpace d = true → letter_i a d = false.
Proof.
  intros H1 H2 Hd. destruct (letter_i a d) eqn:E; [|done].
  apply letter_i_is in E as [-> | ->]; congruence.
Qed.

Lemma not_nonSpace_head rest d t :
  head_in JS.nonSpace rest = false → rest = d :: t → JS.isSpace d = true.
Proof.
  intros Hrest ->. simpl in Hrest. unfold JS.nonSpace in Hrest.
  by destruct (JS.isSpace d).
Qed.

(** The alias pattern does not start in the blanks before an image text,
    unless the text is AS and more follows. *)
Lemma AS_REGEX_not_before {R} input w img rest c (k : cont R) :
  forallb JS.isSpace w = true →
  run_of JS.nonSpace img = true →
  head_in JS.nonSpace rest = false →
  is_AS img = false ∨ rest = [] →
  m AS_REGEX input (w ++ img ++ rest) c k = None.
Proof.
  intros Hw Himg Hrest Hcase.
  pose proof (run_of_all _ _ Himg) as Hall.
  assert (head_in JS.isSpace (img ++ rest) = false) as Hhead.
  { pose proof (nonSpace_head _ Hall). by destruct img. }
  destruct w as [|g w]; [by apply AS_REGEX_not_here|].
  simpl in Hw. apply andb_prop in Hw as [Hg Hw].
  rewrite AS_REGEX_unfold. unfold space at 1. rewrite m_Plus_class.
  rewrite <- app_comm_cons, Hg.
  rewrite star_class_exact; [|done|].
  2:{ intros [|d s'] Hd; [done|]. simpl in Hd. unfold Chr_i. cbn [m].
      by rewrite (space_not_letter "A" d). }
  destruct (span_skip_app JS.isSpace w (img ++ rest)) as [_ ->]; [done|done|].
  unfold Chr_i at 1. cbn [m].
  destruct img as [|a [|b img]]; [done| |].
  - cbn [app]. destruct (letter_i "A" a); [|done].
    unfold Chr_i. cbn [m]. destruct rest as [|d t]; [done|].
    rewrite (space_not_letter "S" d); [done|done|done|].
    by apply (not_nonSpace_head (d :: t) d t).
  - cbn [app]. destruct (letter_i "A" a) eqn:Ea; [|done].
    unfold Chr_i. cbn [m]. destruct (letter_i "S" b) eqn:Eb; [|done].
    unfold space. rewrite m_Plus_class.
    destruct img as [|d img].
    + cbn [app]. destruct Hcase as [Hcase| ->]; [|done].
      simpl in Hcase. by rewrite Ea, Eb in Hcase.
    + cbn [app]. simpl in Himg.
      apply andb_prop in Himg as [_ Himg].
      apply andb_prop in Himg as [_ Himg]. apply andb_prop in Himg as [Hd _].
      unfold JS.nonSpace in Hd. by destruct (JS.isSpace d).
Qed.

(** Nor anywhere in blanks followed by an image text. *)
Lemma AS_REGEX_not_in {R} input w img rest w1 w2 c (k : cont R) :
  forallb JS.isSpace w = true →
  run_of JS.nonSpace img = true →
  head_in JS.nonSpace rest = false →
  is_AS img = false ∨ rest = [] →
  w ++ img = w1 ++ w2 → w2 ≠ [] →
  m AS_REGEX input (w2 ++ rest) c k = None.
Proof.
  intros Hw Himg Hrest Hcase Hsplit Hw2.
  pose proof (run_of_all _ _ Himg) as Hall.
  apply app_eq_app in Hsplit as [l [[-> ->] | [-> ->]]].
  - rewrite forallb_app in Hw. apply andb_prop in Hw as [_ Hl].
    rewrite <- app_assoc. by apply AS_REGEX_not_before.
  - apply AS_REGEX_not_here.
    rewrite forallb_app in Hall. apply andb_prop in Hall as [_ Hall].
    pose proof (nonSpace_head _ Hall). by destruct w2.
Qed.

(** Alias removal after a qualifier was removed: the blanks and the image
    text stay, a trailing alias goes. *)
Lemma alias_removal_after_blanks w img :
  forallb JS.isSpace w = true → run_of JS.nonSpace img = true →
  replace_g AS_REGEX (λ _, []) (w ++ img) = w ++ img.
Proof.
  intros Hw Himg. apply replace_g_unchanged. intros w1 w2 Hsplit.
  destruct w2 as [|d w2]; [by apply AS_REGEX_not_here|].
  rewrite <- (app_nil_r (d :: w2)).
  eapply (AS_REGEX_not_in _ w img []); eauto.
Qed.


Lemma trim_after_blanks w img :
  forallb JS.isSpace w = true → run_of JS.nonSpace img = true →
  JS.trim (w ++ img) = img.
Proof.
  intros Hw Himg. pose proof (run_of_all _ _ Himg) as Hall.
  rewrite <- (trim_unchanged img) at 2 by done.
  unfold JS.trim. f_equal. rewrite !trimStart_skip.
  pose proof (nonSpace_head _ Hall) as Hh.
  destruct (span_skip_app JS.isSpace w img) as [_ ->]; [done|done|].
  destruct (span_skip_app JS.isSpace [] img) as [_ E]; [done|done|]. done.
Qed.

(** Removing the qualifier that starts a text. *)
Lemma qualifier_removed P rest :
  run_of JS.nonSpace P = true → head_in JS.nonSpace rest = false →
  without 61 rest = true →
  replace_g PLATFORM_REGEX (λ _, []) (JS.lit "--platform=" ++ P ++ rest) = rest.
Proof.
  intros HP Hrest Heq.
  pose proof (PLATFORM_REGEX_search (JS.lit "--platform=" ++ P ++ rest)
                [] P rest eq_refl HP Hrest) as E.
  rewrite (replace_g_step PLATFORM_REGEX _ _ _ eq_refl E); [|done].
  cbn [before after]. by rewrite platform_removal_unchanged.
Qed.

End Qualified.

Import Qualified.

(** A FROM line that starts with a platform qualifier: the qualifier's
    value is the platform, and the image is what follows the qualifier,
    aliases removed and trimmed. *)
Lemma parseLine_qualified indent gap P tail trailer image_text tbl :
  forallb JS.isSpace indent = true →
  run_of JS.isSpace gap = true →
  run_of JS.nonSpace P = true → without 36 P = true → without 61 P = true →
  forallb notLT tail = true →
  head_in JS.nonSpace (tail ++ trailer) = false →
  without 36 tail = true → without 61 tail = true →
  head_in notLT trailer = false →
  JS.trim (replace_g AS_REGEX (λ _, []) tail) = image_text →
  parseLine
    (indent ++ JS.lit "FROM" ++ gap ++ (JS.lit "--platform=" ++ P ++ tail)
     ++ trailer) tbl =
  (if decide (image_text = scratch) then None
   else Some {| image := image_text; platform := P |}, tbl).
Proof.
  intros Hindent Hgap HP HPd HPe Htail Hhead Hd He Htrailer Himage.
  pose proof (run_of_all _ _ HP) as HPall.
  assert (head_in JS.nonSpace tail = false) as Hhead'.
  { destruct tail as [|t0 tail]; [done|]. done. }
  erewrite parseLine_FROM.
  2:{ rewrite FROM_REGEX_scans. apply directive_written; try done.
      rewrite !forallb_app, Htail, (nonSpace_notLT P) by done. done. }
  cbn [group1 default]. unfold id, resolveImage.
  rewrite replaceArgsInString_unchanged.
  2:{ rewrite !without_app, HPd, Hd. done. }
  rewrite qualifier_removed, Himage by done.
  replace (indent ++ JS.lit "FROM" ++ gap
           ++ (JS.lit "--platform=" ++ P ++ tail) ++ trailer)
    with ((indent ++ JS.lit "FROM" ++ gap)
          ++ JS.lit "--platform=" ++ P ++ (tail ++ trailer))
    by (by rewrite <- !app_assoc).
  rewrite platformOf_found; [|..|done|done].
  - by rewrite (span_id _ P HPe).
  - rewrite !without_app.
    rewrite (spaces_without 61 indent) by done.
    rewrite (spaces_without 61 gap) by (done || by apply run_of_all).
    done.
Qed.

(** X16.  A FROM line whose text is a platform qualifier, blanks and an
    image text - the qualifier's value and the image text without space,
    ['$'] or ['='] - yields the image text as image and the qualifier's
    value as platform; it yields nothing when the image text is scratch,
    whatever the platform. *)
Theorem qualified_FROM_line :
  ∀ (indent gap P w0 img trailer : list N) (tbl : args_table),
    forallb JS.isSpace indent = true →
    run_of JS.isSpace gap = true →
    run_of JS.nonSpace P = true → without 36 P = true → without 61 P = true →
    run_of JS.isWhiteSpace w0 = true →
    run_of JS.nonSpace img = true →
    without 36 img = true → without 61 img = true →
    head_in notLT trailer = false →
    parseLine
      (indent ++ JS.lit "FROM" ++ gap
       ++ (JS.lit "--platform=" ++ P ++ w0 ++ img) ++ trailer) tbl =
    (if decide (img = scratch) then None
     else Some {| image := img; platform := P |}, tbl).
Proof.
  intros indent gap P w0 img trailer tbl
    Hindent Hgap HP HPd HPe Hw0 Himg Hd He Htrailer.
  pose proof (run_of_all _ _ Himg) as Hall.
  pose proof (run_of_all _ _ Hw0) as Hall0.
  pose proof (whiteSpace_isSpace _ Hall0) as Hs0.
  apply parseLine_qualified; try done.
  - by rewrite forallb_app, (whiteSpace_notLT w0), (nonSpace_notLT img).
  - destruct w0 as [|d w0]; [done|]. simpl in *.
    apply andb_prop in Hs0 as [Hd0 _]. unfold JS.nonSpace. by rewrite Hd0.
  - by rewrite without_app, (spaces_without 36 w0), Hd.
  - by rewrite without_app, (spaces_without 61 w0), He.
  - by rewrite alias_removal_after_blanks, trim_after_blanks.
Qed.

Lemma qualified_FROM_line_witness :
  parseLine
    ([] ++ JS.lit "FROM" ++ JS.lit " "
     ++ (JS.lit "--platform=" ++ JS.lit "linux/amd64" ++ JS.lit " " ++ JS.lit "scratch")
     ++ [13%N]) ∅ =
  (if decide (JS.lit "scratch" = scratch) then None
   else Some {| image := JS.lit "scratch"; platform := JS.lit "linux/amd64" |}, ∅).
Proof. apply qualified_FROM_line; reflexivity. Defined.


